(** * Homograph disambiguation lab: the feature extractor and the accuracies

    A shallow embedding of [train_eval.py].  Python values are modelled as
    the interpreter has them: a [str] is a sequence of Unicode code points,
    a [bytes] object a sequence of bytes, an [int] an unbounded integer, a
    [dict] a finite map, and a raised exception is the [Err] branch of a
    result type.  What the program takes from outside (the NLTK tokenizer,
    the Unicode character database behind the [str] methods, the parser
    behind [int()]) is a parameter of the development. *)

From Stdlib Require Import ZArith NArith QArith List String Ascii Bool Lia.
From Stdlib Require Import Init.Byte.
From stdpp Require Import base option list gmap.

Import ListNotations.
Local Open Scope Z_scope.

(** ** Exceptions and results *)

Module Py.

(** A Python [str]: its code points, in order. *)
Abbreviation str := (list N) (only parsing).

(** A Python [bytes] object. *)
Abbreviation bytes := (list byte) (only parsing).

(** The exceptions the program can raise.  The failed assertion of
    [extract_features] carries the homograph its message names. *)
Inductive exn : Type :=
  | AssertionError (homograph : str)
  | IndexError
  | KeyError (key : str)
  | ValueError
  | UnicodeEncodeError
  | UnicodeDecodeError
  | ZeroDivisionError
  | StatisticsError.

Inductive result (A : Type) : Type :=
  | Ok (a : A)
  | Err (e : exn).

Arguments Ok {A} a.
Arguments Err {A} e.

Definition bind {A B} (m : result A) (k : A -> result B) : result B :=
  match m with
  | Ok a => k a
  | Err e => Err e
  end.

(** A string literal of the program text (ASCII only). *)
Definition lit (s : string) : str :=
  List.map N_of_ascii (list_ascii_of_string s).

(** ** Sequences: [len], indexing, slicing *)

Definition len {A} (l : list A) : Z := Z.of_nat (length l).

(** [l[i]]: a negative index counts from the end; out of range raises. *)
Definition getitem {A} (l : list A) (i : Z) : result A :=
  let j := if i <? 0 then i + len l else i in
  if (j <? 0) || (len l <=? j) then Err IndexError
  else match nth_error l (Z.to_nat j) with
       | Some a => Ok a
       | None => Err IndexError
       end.

(** How a slice bound is brought into [0, len]: negative bounds count from
    the end, and bounds beyond either end are clipped. *)
Definition clip (n i : Z) : Z :=
  if i <? 0 then Z.max 0 (i + n) else Z.min i n.

(** [l[lo:hi]], a missing bound being [None]. *)
Definition slice {A} (l : list A) (lo hi : option Z) : list A :=
  let n := len l in
  let lo' := match lo with Some i => clip n i | None => 0 end in
  let hi' := match hi with Some i => clip n i | None => n end in
  firstn (Z.to_nat (hi' - lo')) (skipn (Z.to_nat lo') l).

(** ** [str] methods that do not consult the character database *)

(** [s.count(c)] for a one-character [c]. *)
Fixpoint count (s : str) (c : N) : Z :=
  match s with
  | [] => 0
  | x :: s' => (if N.eqb x c then 1 else 0) + count s' c
  end.

(** [s.replace(c, "")] for a one-character [c]. *)
Fixpoint remove (s : str) (c : N) : str :=
  match s with
  | [] => []
  | x :: s' => if N.eqb x c then remove s' c else x :: remove s' c
  end.

(** The f-string [f"{a}^{b}"]. *)
Definition join_caret (a b : str) : str := a ++ lit "^" ++ b.

(** ** UTF-8 *)

Definition byte_of_N (n : N) : byte :=
  match Byte.of_N n with Some b => b | None => x00 end.

(** The bytes of one code point; surrogates and values past U+10FFFF have
    no encoding. *)
Definition encode_char (c : N) : option bytes :=
  let cont (k : N) := byte_of_N (N.lor 128 (N.land (N.shiftr c k) 63)) in
  if (c <? 128)%N then Some [byte_of_N c]
  else if (c <? 2048)%N then
    Some [byte_of_N (N.lor 192 (N.shiftr c 6)); cont 0%N]
  else if (c <? 65536)%N then
    if (55296 <=? c)%N && (c <=? 57343)%N then None
    else Some [byte_of_N (N.lor 224 (N.shiftr c 12)); cont 6%N; cont 0%N]
  else if (c <? 1114112)%N then
    Some [byte_of_N (N.lor 240 (N.shiftr c 18)); cont 12%N; cont 6%N; cont 0%N]
  else None.

(** [s.encode("utf8")]. *)
Fixpoint encode (s : str) : result bytes :=
  match s with
  | [] => Ok []
  | c :: s' =>
      match encode_char c with
      | None => Err UnicodeEncodeError
      | Some bs => bind (encode s') (fun rest => Ok (bs ++ rest))
      end
  end.

Definition between (lo x hi : N) : bool := ((lo <=? x) && (x <=? hi))%N.

(** The payload of a continuation byte whose value lies in [lo, hi]. *)
Definition cont_in (lo hi : N) (b : byte) : option N :=
  let n := Byte.to_N b in
  if between lo n hi then Some (N.land n 63) else None.

(** [b.decode("utf8")], strict: overlong forms, surrogates, values past
    U+10FFFF, stray continuation bytes and truncated sequences raise. *)
Fixpoint decode (b : bytes) : result str :=
  match b with
  | [] => Ok []
  | b0 :: r0 =>
      let n0 := Byte.to_N b0 in
      if (n0 <? 128)%N then
        bind (decode r0) (fun s => Ok (n0 :: s))
      else if between 194 n0 223 then
        match r0 with
        | b1 :: r1 =>
            match cont_in 128 191 b1 with
            | Some c1 =>
                bind (decode r1) (fun s =>
                  Ok ((N.shiftl (N.land n0 31) 6 + c1)%N :: s))
            | None => Err UnicodeDecodeError
            end
        | _ => Err UnicodeDecodeError
        end
      else if between 224 n0 239 then
        match r0 with
        | b1 :: b2 :: r2 =>
            let lo := if (n0 =? 224)%N then 160%N else 128%N in
            let hi := if (n0 =? 237)%N then 159%N else 191%N in
            match cont_in lo hi b1, cont_in 128 191 b2 with
            | Some c1, Some c2 =>
                bind (decode r2) (fun s =>
                  Ok ((N.shiftl (N.land n0 15) 12 + N.shiftl c1 6 + c2)%N :: s))
            | _, _ => Err UnicodeDecodeError
            end
        | _ => Err UnicodeDecodeError
        end
      else if between 240 n0 244 then
        match r0 with
        | b1 :: b2 :: b3 :: r3 =>
            let lo := if (n0 =? 240)%N then 144%N else 128%N in
            let hi := if (n0 =? 244)%N then 143%N else 191%N in
            match cont_in lo hi b1, cont_in 128 191 b2, cont_in 128 191 b3 with
            | Some c1, Some c2, Some c3 =>
                bind (decode r3) (fun s =>
                  Ok ((N.shiftl (N.land n0 7) 18 + N.shiftl c1 12
                       + N.shiftl c2 6 + c3)%N :: s))
            | _, _, _ => Err UnicodeDecodeError
            end
        | _ => Err UnicodeDecodeError
        end
      else Err UnicodeDecodeError
  end.

(** ** The character database

    The [str] methods below read per-character properties from the Unicode
    character database of the interpreter.  The database is a parameter:
    [case_of] answers [Py_UNICODE_ISUPPER], [Py_UNICODE_ISLOWER] and
    [Py_UNICODE_ISTITLE] (no character has two of them), [numeric] answers
    [Py_UNICODE_ISNUMERIC], [fold] is the full case folding of a character.
    [digit] ([Py_UNICODE_ISDIGIT]) is never asked by the program; it is
    there to read the word "digits" of the specification. *)

Inductive casing : Type := Upper | Lower | Title | Uncased.

Record Ucd : Type := {
  case_of : N -> casing;
  numeric : N -> bool;
  digit : N -> bool;
  fold : N -> str
}.

Section StrMethods.
Variable u : Ucd.

(** [s.isnumeric()]. *)
Definition isnumeric (s : str) : bool :=
  match s with
  | [] => false
  | _ => forallb (numeric u) s
  end.

(** [s.casefold()]. *)
Definition casefold (s : str) : str := flat_map (fold u) s.

(** The loop of [s.isupper()]: [cased] records that an uppercase
    character was seen. *)
Fixpoint isupper_loop (cased : bool) (s : str) : bool :=
  match s with
  | [] => cased
  | c :: s' =>
      match case_of u c with
      | Lower | Title => false
      | Upper => isupper_loop true s'
      | Uncased => isupper_loop cased s'
      end
  end.

Definition isupper (s : str) : bool := isupper_loop false s.

(** The loop of [s.islower()]. *)
Fixpoint islower_loop (cased : bool) (s : str) : bool :=
  match s with
  | [] => cased
  | c :: s' =>
      match case_of u c with
      | Upper | Title => false
      | Lower => islower_loop true s'
      | Uncased => islower_loop cased s'
      end
  end.

Definition islower (s : str) : bool := islower_loop false s.

(** The loop of [s.istitle()]: uppercase and titlecase characters may
    only follow uncased ones, lowercase characters only cased ones. *)
Fixpoint istitle_loop (cased previous_is_cased : bool) (s : str) : bool :=
  match s with
  | [] => cased
  | c :: s' =>
      match case_of u c with
      | Upper | Title =>
          if previous_is_cased then false else istitle_loop true true s'
      | Lower =>
          if previous_is_cased then istitle_loop true true s' else false
      | Uncased => istitle_loop cased false s'
      end
  end.

Definition istitle (s : str) : bool := istitle_loop false false s.
End StrMethods.

End Py.

Import Py.

Notation "'do' x <- m 'in' k" := (Py.bind m (fun x => k))
  (at level 10, x name, m at level 100, k at level 200,
   format "'[v' 'do'  x  <-  m  'in' '/' k ']'").

(** ** The program *)

Abbreviation FeatureVector := (gmap str str) (only parsing).
Abbreviation FeatureVectors := (list FeatureVector) (only parsing).

(** [d[k]] on a dictionary. *)
Definition getkey (d : FeatureVector) (k : str) : result str :=
  match d !! k with
  | Some v => Ok v
  | None => Err (KeyError k)
  end.

Definition caret : N := 94.
Definition underscore : N := 95.
Definition caret_b : byte := byte_of_N caret.

Section Program.
(** [nltk.word_tokenize]. *)
Variable word_tokenize : str -> list str.
(** The character database of the interpreter. *)
Variable u : Ucd.
(** [int] on a [str]. *)
Variable int : str -> result Z.

Definition _token_feature (tokens : list str) (index : Z) : result str :=
  if index <? 0 then Ok (lit "[$]")
  else if index >=? len tokens then Ok (lit "[^]")
  else
    do token <- getitem tokens index in
    Ok (if isnumeric u token then lit "[NUMERIC]" else casefold u token).

(** Lines 39-43: the sentence with ["^"] on either side of the span. *)
Definition marked_bytes (sentence_b : bytes) (start end_ : Z) : bytes :=
  let left := slice sentence_b None (Some start) in
  let target := [caret_b] ++ slice sentence_b (Some start) (Some end_)
                ++ [caret_b] in
  let right := slice sentence_b (Some end_) None in
  left ++ target ++ right.

Definition marked_sentence (sentence : str) (start end_ : Z) : result str :=
  do sentence_b <- encode sentence in
  decode (marked_bytes sentence_b start end_).

(** Lines 47-51: the index of the first token with two carets, [-1]
    when the loop ends without a [break]. *)
Fixpoint find_target_from (i : Z) (tokens : list str) : Z :=
  match tokens with
  | [] => -1
  | token :: rest =>
      if count token caret =? 2 then i
      else find_target_from (i + 1) rest
  end.

Definition find_target (tokens : list str) : Z := find_target_from 0 tokens.

(** Lines 63-70: the capitalization class. *)
Definition cap (target : str) : str :=
  if isupper u target then lit "upper"
  else if islower u target then lit "lower"
  else if istitle u target then lit "title"
  else lit "na".

Definition extract_features
    (sentence homograph : str) (start end_ : Z) : result FeatureVector :=
  do sentence <- marked_sentence sentence start end_ in
  let tokens := word_tokenize sentence in
  let t := find_target tokens in
  if t =? -1 then Err (AssertionError homograph)
  else
    do token <- getitem tokens t in
    let target := remove token underscore in
    let features : FeatureVector := ∅ in
    do v <- _token_feature tokens (t - 1) in
    let features := <[lit "t-1" := v]> features in
    do v <- _token_feature tokens (t - 2) in
    let features := <[lit "t-2" := v]> features in
    do v <- _token_feature tokens (t + 1) in
    let features := <[lit "t+1" := v]> features in
    do v <- _token_feature tokens (t + 2) in
    let features := <[lit "t+2" := v]> features in
    do a <- getkey features (lit "t-2") in
    do b <- getkey features (lit "t-2") in
    let features := <[lit "t-2^t+1" := join_caret a b]> features in
    do a <- getkey features (lit "t+1") in
    do b <- getkey features (lit "t+2") in
    let features := <[lit "t+1^t+2" := join_caret a b]> features in
    do a <- getkey features (lit "t-1") in
    do b <- getkey features (lit "t+1") in
    let features := <[lit "t-1^t+1" := join_caret a b]> features in
    let features := <[lit "cap(t)" := cap target]> features in
    Ok features.

(** A row of [csv.DictReader]: every field is text. *)
Record Row : Type := {
  sentence : str;
  homograph : str;
  start : str;
  end_ : str;
  wordid : str
}.

(** The rows [csv.DictReader] yields for the file at a path. *)
Variable DictReader : str -> list Row.

(** Lines 79-88: the loop over the rows, with the two lists it grows. *)
Fixpoint extract_features_rows
    (rows : list Row) (features : FeatureVectors) (labels : list str)
    : result (FeatureVectors * list str) :=
  match rows with
  | [] => Ok (features, labels)
  | row :: rest =>
      let labels := labels ++ [wordid row] in
      do s <- int (start row) in
      do e <- int (end_ row) in
      do fv <- extract_features (sentence row) (homograph row) s e in
      let features := features ++ [fv] in
      extract_features_rows rest features labels
  end.

Definition extract_features_file (path : str)
    : result (FeatureVectors * list str) :=
  extract_features_rows (DictReader path) [] [].
End Program.

(** ** The accuracies of [main]

    [correct] and [size] hold one count per corpus file.  A Python float is
    modelled by the rational it stands for: the rounding of [/] to binary64
    and the [%.4f] of the log line are outside the model. *)

Definition sum (l : list Z) : Z := fold_left Z.add l 0.

(** [a / b] on integers. *)
Definition truediv (a b : Z) : result Q :=
  if b =? 0 then Err ZeroDivisionError
  else Ok (inject_Z a / inject_Z b)%Q.

(** [statistics.mean]. *)
Definition mean (data : list Q) : result Q :=
  match data with
  | [] => Err StatisticsError
  | _ => Ok (fold_left Qplus data 0%Q / inject_Z (len data))%Q
  end.

(** The generator [(c / s for (c, s) in zip(correct, size))], run to its
    end. *)
Fixpoint ratios (pairs : list (Z * Z)) : result (list Q) :=
  match pairs with
  | [] => Ok []
  | (c, s) :: rest =>
      do q <- truediv c s in
      do qs <- ratios rest in
      Ok (q :: qs)
  end.

Definition micro_accuracy (correct size : list Z) : result Q :=
  truediv (sum correct) (sum size).

Definition macro_accuracy (correct size : list Z) : result Q :=
  do gen <- ratios (combine correct size) in
  mean gen.

(** ** [main]: one model per corpus file *)

Definition TRAIN_TSV : str := lit "WikipediaHomographData/data/train/*.tsv".

(** [s.startswith(prefix)]. *)
Fixpoint startswith (s prefix : str) : bool :=
  match prefix, s with
  | [], _ => true
  | p :: prefix', c :: s' => (c =? p)%N && startswith s' prefix'
  | _ :: _, [] => false
  end.

(** The scan of [s.replace(old, new)] for a non-empty [old]: occurrences
    are taken from the left and do not overlap; [skip] counts the
    characters of the occurrence just replaced that are still to be
    passed over. *)
Fixpoint replace_loop (old new : str) (skip : nat) (s : str) : str :=
  match s with
  | [] => []
  | c :: s' =>
      match skip with
      | S k => replace_loop old new k s'
      | O =>
          if startswith s old
          then new ++ replace_loop old new (length old - 1) s'
          else c :: replace_loop old new 0 s'
      end
  end.

Definition replace (s old new : str) : str := replace_loop old new 0 s.

(** [sum(y == yhat)] on sequences of one length: the number of places
    where the two agree. *)
Fixpoint matches (y yhat : list str) : Z :=
  match y, yhat with
  | a :: y', b :: yhat' =>
      (if decide (a = b) then 1 else 0) + matches y' yhat'
  | _, _ => 0
  end.

(** Lines 118-120: the two numbers that are logged. *)
Definition accuracies (correct size : list Z) : result (Q * Q) :=
  do micro <- micro_accuracy correct size in
  do macro <- macro_accuracy correct size in
  Ok (micro, macro).

Section Main.
Variable word_tokenize : str -> list str.
Variable u : Ucd.
Variable int : str -> result Z.
Variable DictReader : str -> list Row.
(** [glob.iglob]. *)
Variable iglob : str -> list str.
(** A fitted vectorizer with its fitted classifier. *)
Variable Model : Type.
(** [vectorizer.fit_transform] followed by [model.fit]. *)
Variable fit : FeatureVectors -> list str -> result Model.
(** [vectorizer.transform] followed by [model.predict]. *)
Variable predict : Model -> FeatureVectors -> result (list str).

(** Lines 96-116: the loop over the training files, with the two lists
    it grows. *)
Fixpoint main_loop (paths : list str) (correct size : list Z)
    : result (list Z * list Z) :=
  match paths with
  | [] => Ok (correct, size)
  | train_path :: rest =>
      do r <- extract_features_file word_tokenize u int DictReader
                train_path in
      let (feature_vectors, y) := r in
      do model <- fit feature_vectors y in
      let eval_path := replace train_path (lit "/train/") (lit "/eval/") in
      do r <- extract_features_file word_tokenize u int DictReader
                eval_path in
      let (feature_vectors, y) := r in
      do yhat <- predict model feature_vectors in
      if negb (len y =? len yhat)
      then Err (AssertionError (lit "Mismatched lengths"))
      else
        let correct := correct ++ [matches y yhat] in
        let size := size ++ [len y] in
        main_loop rest correct size
  end.

Definition main : result (Q * Q) :=
  do r <- main_loop (iglob TRAIN_TSV) [] [] in
  let (correct, size) := r in
  accuracies correct size.
End Main.

(** ** Closed instances for running the program

    [latin1] is the character database on U+0000..U+00FF; past U+00FF it
    answers uncased, not numeric, folding to itself.  [split_tokenize] cuts
    a sentence at spaces, as the tokenizer does on text without
    punctuation, quotes or contractions.  [decimal] reads an unsigned
    decimal numeral. *)

Definition latin1_case (c : N) : casing :=
  if between 65 c 90 || between 192 c 214 || between 216 c 222 then Upper
  else if between 97 c 122 || between 223 c 246 || between 248 c 255
          || (c =? 170)%N || (c =? 181)%N || (c =? 186)%N then Lower
  else Uncased.

Definition latin1_digit (c : N) : bool :=
  between 48 c 57 || (c =? 178)%N || (c =? 179)%N || (c =? 185)%N.

Definition latin1_numeric (c : N) : bool :=
  latin1_digit c || between 188 c 190.

Definition latin1_fold (c : N) : str :=
  if between 65 c 90 || between 192 c 214 || between 216 c 222
  then [(c + 32)%N]
  else if (c =? 181)%N then [956%N]
  else if (c =? 223)%N then [115%N; 115%N]
  else [c].

Definition latin1 : Ucd :=
  {| case_of := latin1_case; numeric := latin1_numeric;
     digit := latin1_digit; fold := latin1_fold |}.

Fixpoint split_loop (word : str) (s : str) : list str :=
  match s with
  | [] => match word with [] => [] | _ => [rev word] end
  | c :: s' =>
      if (c =? 32)%N
      then match word with
           | [] => split_loop [] s'
           | _ => rev word :: split_loop [] s'
           end
      else split_loop (c :: word) s'
  end.

Definition split_tokenize (s : str) : list str := split_loop [] s.

Fixpoint decimal_loop (acc : Z) (s : str) : result Z :=
  match s with
  | [] => Ok acc
  | c :: s' =>
      if between 48 c 57
      then decimal_loop (10 * acc + Z.of_N (c - 48)) s'
      else Err ValueError
  end.

Definition decimal (s : str) : result Z :=
  match s with
  | [] => Err ValueError
  | _ => decimal_loop 0 s
  end.

(** Two rows of a corpus file: one whose homograph is a token of its
    sentence, one whose span runs over two tokens. *)
Definition example_row : Row :=
  {| sentence := lit "to record the record ."; homograph := lit "record";
     start := lit "14"; end_ := lit "20"; wordid := lit "record_nou" |}.

Definition example_bad_row : Row :=
  {| sentence := lit "rec ord"; homograph := lit "rec ord";
     start := lit "0"; end_ := lit "7"; wordid := lit "record_vrb" |}.

(** A second row, labelled as the verb, and the stand-ins for the reader
    and the learner used to run [main]: the training split of a file has
    two rows and its evaluation split the same two; the classifier
    always answers the noun. *)
Definition example_verb_row : Row :=
  {| sentence := lit "they record the song"; homograph := lit "record";
     start := lit "5"; end_ := lit "11"; wordid := lit "record_vrb" |}.

Definition example_reader (path : str) : list Row :=
  [example_row; example_verb_row].

Definition example_fit (x : FeatureVectors) (y : list str) : result unit :=
  Ok tt.

Definition example_predict (model : unit) (x : FeatureVectors)
    : result (list str) :=
  Ok (List.map (fun _ => lit "record_nou") x).

(** ** Definitions used to state the properties *)

(** The number of bytes of [b] equal to [x]. *)
Fixpoint count_byte (b : bytes) (x : byte) : Z :=
  match b with
  | [] => 0
  | y :: b' => (if Byte.eqb y x then 1 else 0) + count_byte b' x
  end.


(** The positional value as the specification words it: a token that
    "consists only of digits" is read through [digit]. *)
Definition positional_value_spec
    (u : Ucd) (tokens : list str) (index : Z) : option str :=
  if index <? 0 then Some (lit "[$]")
  else if len tokens <=? index then Some (lit "[^]")
  else match nth_error tokens (Z.to_nat index) with
       | Some token =>
           Some (if forallb (digit u) token then lit "[NUMERIC]"
                 else casefold u token)
       | None => None
       end.

(** Putting [x] in front of position [n] of a list. *)
Definition insert_at {A} (n : nat) (x : A) (l : list A) : list A :=
  firstn n l ++ x :: skipn n l.

(** The marking as the specification words it: one delimiter byte
    immediately before offset [start], one immediately after offset
    [end_], which lies one place further right once the first is in. *)
Definition marked_bytes_spec (sentence_b : bytes) (start end_ : Z) : bytes :=
  insert_at (S (Z.to_nat end_)) caret_b
    (insert_at (Z.to_nat start) caret_b sentence_b).

(** Taking the element at position [n] out of a list. *)
Definition delete_at {A} (n : nat) (l : list A) : list A :=
  firstn n l ++ skipn (S n) l.

(** The eight feature names. *)
Definition feature_names : gset str :=
  {[ lit "t-1"; lit "t-2"; lit "t+1"; lit "t+2";
     lit "t-2^t+1"; lit "t+1^t+2"; lit "t-1^t+1"; lit "cap(t)" ]}.

(** The dictionary [extract_features] has built when it returns, from the
    four positional values and the capitalization class. *)
Definition feature_map (v1 v2 v3 v4 c : str) : FeatureVector :=
  <[lit "cap(t)" := c]>
    (<[lit "t-1^t+1" := join_caret v1 v3]>
      (<[lit "t+1^t+2" := join_caret v3 v4]>
        (<[lit "t-2^t+1" := join_caret v2 v2]>
          (<[lit "t+2" := v4]>
            (<[lit "t+1" := v3]>
              (<[lit "t-2" := v2]> (<[lit "t-1" := v1]> ∅))))))).

(** The classes in the specification's words, over the characters of a
    text: it has a cased character; all its cased characters have one
    case; it is title-cased, that is, it has a cased character, uppercase
    and titlecase characters come only after uncased ones (or first), and
    lowercase characters only after cased ones. *)
Definition has_cased (u : Ucd) (s : str) : Prop :=
  Exists (fun c => case_of u c <> Uncased) s.

Definition all_cased_are (u : Ucd) (k : casing) (s : str) : Prop :=
  Forall (fun c => case_of u c <> Uncased -> case_of u c = k) s.

Definition may_follow (previous c : casing) : Prop :=
  match c with
  | Upper | Title => previous = Uncased
  | Lower => previous <> Uncased
  | Uncased => True
  end.

(** The case of the character before position [i]; [first] stands before
    position 0. *)
Definition case_before (u : Ucd) (first : casing) (s : str) (i : nat)
    : casing :=
  match i with
  | O => first
  | S j => match nth_error s j with
           | Some p => case_of u p
           | None => Uncased
           end
  end.

Definition titlecased (u : Ucd) (s : str) : Prop :=
  has_cased u s /\
  forall (i : nat) c,
    nth_error s i = Some c ->
    may_follow (case_before u Uncased s i) (case_of u c).

(** The database classes the ASCII letters as Unicode does, and the caret
    as uncased. *)
Definition ascii_cases (u : Ucd) : Prop :=
  case_of u caret = Uncased /\
  forall c : N,
    ((65 <= c <= 90)%N -> case_of u c = Upper) /\
    ((97 <= c <= 122)%N -> case_of u c = Lower).

(** What one turn of the loop of [extract_features_file] computes from
    its row. *)
Definition row_features
    (word_tokenize : str -> list str) (u : Ucd) (int : str -> result Z)
    (row : Row) : result FeatureVector :=
  do s <- int (start row) in
  do e <- int (end_ row) in
  extract_features word_tokenize u (sentence row) (homograph row) s e.

(** The sums and the per-file ratio in the specification's words. *)
Definition Zsum (l : list Z) : Z := fold_right Z.add 0 l.
Definition Qsum (l : list Q) : Q := fold_right Qplus 0%Q l.
Definition ratio (r : Z * Z) : Q := (inject_Z (fst r) / inject_Z (snd r))%Q.

(** * Properties *)

(** ** Indexing and slicing *)

Lemma nth_error_in_range {A} (l : list A) (i : Z) :
  0 <= i < len l -> exists a, nth_error l (Z.to_nat i) = Some a.
Proof.
  unfold len. intros H.
  destruct (nth_error l (Z.to_nat i)) as [a|] eqn:E; [eauto|].
  apply nth_error_None in E. lia.
Qed.

Lemma getitem_in_range {A} (l : list A) (i : Z) (a : A) :
  0 <= i < len l -> nth_error l (Z.to_nat i) = Some a -> getitem l i = Ok a.
Proof.
  intros H E. unfold getitem.
  replace (i <? 0) with false by lia.
  replace ((i <? 0) || (len l <=? i)) with false by lia.
  now rewrite E.
Qed.

Lemma getitem_out_of_range {A} (l : list A) (i : Z) :
  i < - len l \/ len l <= i -> getitem l i = Err IndexError.
Proof.
  intros H. unfold getitem.
  destruct (i <? 0) eqn:E.
  - replace ((i + len l <? 0) || (len l <=? i + len l)) with true by lia.
    reflexivity.
  - replace ((i <? 0) || (len l <=? i)) with true by lia. reflexivity.
Qed.

(** ** The positional feature *)

Section TokenFeature.
Variable u : Ucd.
Implicit Types (tokens : list str) (index : Z) (token : str).

Lemma token_feature_left tokens index :
  index < 0 -> _token_feature u tokens index = Ok (lit "[$]").
Proof.
  intros H. unfold _token_feature.
  now replace (index <? 0) with true by lia.
Qed.

Lemma token_feature_right tokens index :
  len tokens <= index -> _token_feature u tokens index = Ok (lit "[^]").
Proof.
  intros H. unfold _token_feature. pose proof (Zle_0_nat (length tokens)).
  unfold len in *.
  replace (index <? 0) with false by lia.
  now replace (index >=? Z.of_nat (length tokens)) with true by lia.
Qed.

Lemma token_feature_inside tokens index token :
  0 <= index < len tokens ->
  nth_error tokens (Z.to_nat index) = Some token ->
  _token_feature u tokens index =
    Ok (if isnumeric u token then lit "[NUMERIC]" else casefold u token).
Proof.
  intros H E. unfold _token_feature.
  replace (index <? 0) with false by lia.
  replace (index >=? len tokens) with false by lia.
  now rewrite (getitem_in_range tokens index token H E).
Qed.

Lemma isnumeric_true token :
  isnumeric u token = true <->
  token <> [] /\ Forall (fun c => numeric u c = true) token.
Proof.
  unfold isnumeric. split.
  - destruct token as [|c token]; [discriminate|].
    intros H. split; [discriminate|].
    apply List.Forall_forall. now apply forallb_forall.
  - intros [Hne H]. destruct token as [|c token]; [congruence|].
    apply forallb_forall. now apply List.Forall_forall.
Qed.
End TokenFeature.

Lemma token_feature_returns (u : Ucd) (tokens : list str) (index : Z) :
  exists v, _token_feature u tokens index = Ok v /\
    (index < 0 \/ len tokens <= index \/
     exists token, getitem tokens index = Ok token).
Proof.
  destruct (Z_lt_le_dec index 0) as [Hneg|Hpos].
  - exists (lit "[$]"). split; [now apply token_feature_left | now left].
  - destruct (Z_le_gt_dec (len tokens) index) as [Hge|Hlt].
    + exists (lit "[^]"). split; [now apply token_feature_right | auto].
    + destruct (nth_error_in_range tokens index) as [token E]; [lia|].
      eexists. split.
      * apply token_feature_inside; [lia | exact E].
      * right; right. exists token. apply getitem_in_range; [lia | exact E].
Qed.

(** C10: the positional feature helper is total.  For every token list and
    every integer index, however negative or however far past the end, it
    returns a string; the list is only accessed when the two guards have
    let the index through, and there the access succeeds. *)
Theorem token_feature_total (u : Ucd) (tokens : list str) (index : Z) :
  exists v, _token_feature u tokens index = Ok v /\
    (index < 0 \/ len tokens <= index \/
     exists token, getitem tokens index = Ok token).
Proof. apply token_feature_returns. Qed.

(** C6, as stated, fails: the token "½" (U+00BD) is numeric but is no
    digit.  The program answers "[NUMERIC]" for it, where the wording
    "only of digits" gives its case-folded text. *)
Lemma token_feature_numeric_not_digit :
  _token_feature latin1 [[189%N]] 0 = Ok (lit "[NUMERIC]") /\
  digit latin1 189 = false /\
  positional_value_spec latin1 [[189%N]] 0 = Some [189%N] /\
  lit "[NUMERIC]" <> [189%N].
Proof. vm_compute. repeat split; discriminate. Qed.

(** C6, amended: the positional value is "[$]" left of the list, "[^]" at
    or past its end, "[NUMERIC]" on a non-empty token all of whose
    characters are numeric ([str.isnumeric]), and the case-folded token
    otherwise.  So a token of digits gives "[NUMERIC]" wherever the
    database counts digits as numeric, a target at index 0 has "[$]" at
    t-1 and t-2, and a target at the last index has "[^]" at t+1 and
    t+2. *)
Theorem token_feature_cases (u : Ucd) (tokens : list str) (index : Z) :
  (index < 0 -> _token_feature u tokens index = Ok (lit "[$]")) /\
  (len tokens <= index -> _token_feature u tokens index = Ok (lit "[^]")) /\
  (forall token,
     0 <= index < len tokens ->
     nth_error tokens (Z.to_nat index) = Some token ->
     (token <> [] /\ Forall (fun c => numeric u c = true) token ->
      _token_feature u tokens index = Ok (lit "[NUMERIC]")) /\
     (~ (token <> [] /\ Forall (fun c => numeric u c = true) token) ->
      _token_feature u tokens index = Ok (casefold u token)) /\
     ((forall c, digit u c = true -> numeric u c = true) ->
      token <> [] -> Forall (fun c => digit u c = true) token ->
      _token_feature u tokens index = Ok (lit "[NUMERIC]"))) /\
  (_token_feature u tokens (0 - 1) = Ok (lit "[$]") /\
   _token_feature u tokens (0 - 2) = Ok (lit "[$]")) /\
  (_token_feature u tokens (len tokens - 1 + 1) = Ok (lit "[^]") /\
   _token_feature u tokens (len tokens - 1 + 2) = Ok (lit "[^]")).
Proof.
  split; [apply token_feature_left|].
  split; [apply token_feature_right|].
  split.
  - intros token Hin E.
    rewrite (token_feature_inside u tokens index token Hin E).
    split; [|split].
    + intros H. apply isnumeric_true in H. now rewrite H.
    + intros H. destruct (isnumeric u token) eqn:N; [|reflexivity].
      apply isnumeric_true in N. contradiction.
    + intros Hdn Hne Hd.
      assert (N : isnumeric u token = true).
      { apply isnumeric_true. split; [exact Hne|].
        eapply Forall_impl; [exact Hd|]. exact Hdn. }
      now rewrite N.
  - split; split;
      solve [ apply token_feature_left; lia | apply token_feature_right; lia ].
Qed.

Lemma token_feature_cases_witness :
  _token_feature latin1 [lit "2019"; lit "Record"] 0 = Ok (lit "[NUMERIC]") /\
  _token_feature latin1 [lit "2019"; lit "Record"] 1 = Ok (lit "record") /\
  _token_feature latin1 [lit "2019"; lit "Record"] (-1) = Ok (lit "[$]") /\
  _token_feature latin1 [lit "2019"; lit "Record"] 2 = Ok (lit "[^]").
Proof.
  pose proof (token_feature_cases latin1 [lit "2019"; lit "Record"] 0)
    as (_ & _ & H0 & _).
  pose proof (token_feature_cases latin1 [lit "2019"; lit "Record"] 1)
    as (_ & _ & H1 & _).
  pose proof (token_feature_cases latin1 [lit "2019"; lit "Record"] (-1))
    as (Hl & _).
  pose proof (token_feature_cases latin1 [lit "2019"; lit "Record"] 2)
    as (_ & Hr & _).
  split; [|split; [|split]].
  - destruct (H0 (lit "2019")) as (_ & _ & H);
      [vm_compute; split; congruence | reflexivity |].
    apply H.
    + intros c Hc. unfold latin1, numeric, digit in *. unfold latin1_numeric.
      now rewrite Hc.
    + discriminate.
    + repeat constructor.
  - destruct (H1 (lit "Record")) as (_ & H & _);
      [vm_compute; split; congruence | reflexivity |].
    apply H. intros [_ HF]. inversion HF as [|? ? Hc _].
    vm_compute in Hc. discriminate.
  - apply Hl. lia.
  - apply Hr. vm_compute. discriminate.
Defined.

(** ** Marker insertion *)

Lemma slice_prefix {A} (l : list A) (i : Z) :
  0 <= i <= len l -> slice l None (Some i) = firstn (Z.to_nat i) l.
Proof.
  intros H. unfold slice, clip.
  replace (i <? 0) with false by lia.
  rewrite Z.min_l by lia. rewrite Z.sub_0_r. reflexivity.
Qed.

Lemma slice_suffix {A} (l : list A) (i : Z) :
  0 <= i <= len l -> slice l (Some i) None = skipn (Z.to_nat i) l.
Proof.
  intros H. unfold slice, clip.
  replace (i <? 0) with false by lia.
  rewrite Z.min_l by lia.
  apply firstn_all2. rewrite length_skipn. unfold len in *. lia.
Qed.

Lemma slice_middle {A} (l : list A) (i j : Z) :
  0 <= i <= j -> j <= len l ->
  slice l (Some i) (Some j) =
    firstn (Z.to_nat j - Z.to_nat i) (skipn (Z.to_nat i) l).
Proof.
  intros Hi Hj. unfold slice, clip.
  replace (i <? 0) with false by lia.
  replace (j <? 0) with false by lia.
  rewrite !Z.min_l by lia.
  replace (Z.to_nat (j - i)) with (Z.to_nat j - Z.to_nat i)%nat by lia.
  reflexivity.
Qed.

Lemma insert_at_twice {A} (l : list A) (x : A) (i j : nat) :
  (i <= j <= length l)%nat ->
  insert_at (S j) x (insert_at i x l) =
    firstn i l ++ [x] ++ firstn (j - i) (skipn i l) ++ [x] ++ skipn j l.
Proof.
  intros H. unfold insert_at.
  assert (Hlen : length (firstn i l) = i) by (rewrite length_firstn; lia).
  rewrite firstn_app, skipn_app, Hlen.
  rewrite (firstn_all2 (n := S j) (firstn i l)) by lia.
  rewrite (skipn_all2 (n := S j) (firstn i l)) by lia.
  replace (S j - i)%nat with (S (j - i)) by lia.
  cbn [firstn skipn app].
  rewrite skipn_skipn. replace (j - i + i)%nat with j by lia.
  rewrite <- !app_assoc. reflexivity.
Qed.

Lemma marked_bytes_eq (sentence_b : bytes) (start end_ : Z) :
  0 <= start < end_ -> end_ <= len sentence_b ->
  marked_bytes sentence_b start end_ = marked_bytes_spec sentence_b start end_.
Proof.
  intros Hs He. unfold marked_bytes, marked_bytes_spec.
  rewrite slice_prefix, slice_suffix, slice_middle by lia.
  rewrite insert_at_twice by (unfold len in *; lia).
  rewrite <- !app_assoc. reflexivity.
Qed.

Lemma delete_insert_at {A} (n : nat) (x : A) (l : list A) :
  (n <= length l)%nat -> delete_at n (insert_at n x l) = l.
Proof.
  intros H. unfold delete_at, insert_at.
  assert (Hlen : length (firstn n l) = n) by (rewrite length_firstn; lia).
  rewrite firstn_app, skipn_app, Hlen.
  rewrite (skipn_all2 (n := S n) (firstn n l)) by lia.
  rewrite Nat.sub_diag. replace (S n - n)%nat with 1%nat by lia.
  rewrite firstn_firstn, Nat.min_id. cbn [firstn skipn app].
  rewrite skipn_O, app_nil_r. apply firstn_skipn.
Qed.

Lemma length_insert_at {A} (n : nat) (x : A) (l : list A) :
  length (insert_at n x l) = S (length l).
Proof.
  unfold insert_at. rewrite length_app. cbn [length].
  rewrite <- (firstn_skipn n l) at 3. rewrite length_app. lia.
Qed.

Lemma nth_error_insert_at {A} (n : nat) (x : A) (l : list A) :
  (n <= length l)%nat -> nth_error (insert_at n x l) n = Some x.
Proof.
  intros H. unfold insert_at.
  assert (Hlen : length (firstn n l) = n) by (rewrite length_firstn; lia).
  rewrite nth_error_app2 by lia. rewrite Hlen, Nat.sub_diag. reflexivity.
Qed.

(** C7: for offsets with [0 <= start < end_ <= byte-length], the sentence
    handed to the tokenizer is the UTF-8 decoding of the sentence's bytes
    with one caret byte put immediately before offset [start] and one
    immediately after offset [end_]; taking the two carets out again gives
    the sentence's bytes back, so every other byte is unchanged; and the
    marked sentence is the only text the tokenizer's answer is used on. *)
Theorem marked_sentence_decodes_insertion
    (word_tokenize : str -> list str) (u : Ucd)
    (sentence homograph : str) (sentence_b : bytes) (start end_ : Z) :
  encode sentence = Ok sentence_b ->
  0 <= start < end_ -> end_ <= len sentence_b ->
  let marked := marked_bytes_spec sentence_b start end_ in
  marked_sentence sentence start end_ = decode marked /\
  nth_error marked (Z.to_nat start) = Some caret_b /\
  nth_error marked (S (Z.to_nat end_)) = Some caret_b /\
  delete_at (Z.to_nat start) (delete_at (S (Z.to_nat end_)) marked)
    = sentence_b /\
  (forall tokenize' : str -> list str,
     (forall s, decode marked = Ok s -> tokenize' s = word_tokenize s) ->
     extract_features tokenize' u sentence homograph start end_ =
     extract_features word_tokenize u sentence homograph start end_).
Proof.
  intros Henc Hs He marked.
  assert (Hm : marked_sentence sentence start end_ = decode marked).
  { unfold marked_sentence. rewrite Henc. cbn [bind].
    now rewrite marked_bytes_eq. }
  assert (Hn : (Z.to_nat start <= Z.to_nat end_ <= length sentence_b)%nat)
    by (unfold len in *; lia).
  split; [exact Hm|]. split; [|split; [|split]].
  - subst marked. unfold marked_bytes_spec.
    unfold insert_at at 1.
    rewrite nth_error_app1.
    + rewrite nth_error_firstn.
      replace (Z.to_nat start <? S (Z.to_nat end_))%nat with true
        by (symmetry; apply Nat.ltb_lt; lia).
      apply nth_error_insert_at. lia.
    + rewrite length_firstn, length_insert_at. lia.
  - subst marked. unfold marked_bytes_spec.
    apply nth_error_insert_at. rewrite length_insert_at. lia.
  - subst marked. unfold marked_bytes_spec.
    rewrite delete_insert_at by (rewrite length_insert_at; lia).
    apply delete_insert_at. lia.
  - intros tokenize' Hsame. unfold extract_features. rewrite Hm.
    destruct (decode marked) as [s|e] eqn:D; [|reflexivity].
    cbn [bind]. now rewrite Hsame.
Qed.

Lemma marked_sentence_decodes_insertion_witness :
  marked_sentence [233%N; 32%N; 111%N; 107%N] 3 5
    = Ok [233%N; 32%N; 94%N; 111%N; 107%N; 94%N] /\
  marked_bytes_spec [xc3; xa9; x20; x6f; x6b] 3 5
    = [xc3; xa9; x20; x5e; x6f; x6b; x5e].
Proof.
  pose proof (marked_sentence_decodes_insertion
                (fun s => [s]) latin1 [233%N; 32%N; 111%N; 107%N] []
                [xc3; xa9; x20; x6f; x6b] 3 5
                eq_refl ltac:(lia) ltac:(vm_compute; discriminate))
    as (H & _).
  split; [rewrite H|]; reflexivity.
Defined.

(** ** The search for the target *)

Lemma find_target_from_range (tokens : list str) (i : Z) :
  0 <= i ->
  find_target_from i tokens = -1 \/
  i <= find_target_from i tokens < i + len tokens.
Proof.
  revert i. induction tokens as [|token rest IH]; intros i Hi; cbn.
  - now left.
  - destruct (count token caret =? 2).
    + right. unfold len. cbn [length]. lia.
    + destruct (IH (i + 1)) as [H|H]; [lia | now left |].
      right. unfold len in *. cbn [length]. lia.
Qed.

Lemma find_target_from_none (tokens : list str) (i : Z) :
  0 <= i ->
  (find_target_from i tokens = -1 <->
   Forall (fun token => count token caret <> 2) tokens).
Proof.
  revert i. induction tokens as [|token rest IH]; intros i Hi; cbn.
  - split; [constructor | reflexivity].
  - destruct (count token caret =? 2) eqn:E.
    + split; [lia|]. intros H. inversion H; subst. lia.
    + rewrite IH by lia. split.
      * intros H. constructor; [lia | exact H].
      * intros H. now inversion H.
Qed.

Lemma find_target_from_first (tokens : list str) (i t : Z) :
  0 <= i -> find_target_from i tokens = t -> t <> -1 ->
  exists token,
    nth_error tokens (Z.to_nat (t - i)) = Some token /\
    count token caret = 2 /\
    forall (j : nat) token',
      (j < Z.to_nat (t - i))%nat -> nth_error tokens j = Some token' ->
      count token' caret <> 2.
Proof.
  revert i. induction tokens as [|token rest IH]; intros i Hi; cbn.
  - congruence.
  - destruct (count token caret =? 2) eqn:E.
    + intros <- _. exists token. rewrite Z.sub_diag. cbn.
      split; [reflexivity|]. split; [lia|]. intros j ? Hj. lia.
    + intros Ht Hne.
      pose proof (find_target_from_range rest (i + 1) ltac:(lia)) as Hr.
      rewrite Ht in Hr.
      destruct (IH (i + 1) ltac:(lia) Ht Hne) as (tok & Hn & Hc & Hfirst).
      replace (Z.to_nat (t - i)) with (S (Z.to_nat (t - (i + 1)))) by lia.
      exists tok. split; [exact Hn|]. split; [exact Hc|].
      intros [|j] token' Hj; cbn.
      * intros [= <-]. lia.
      * apply Hfirst. lia.
Qed.

(** ** The feature vector *)

Section Extract.
Variable word_tokenize : str -> list str.
Variable u : Ucd.

Lemma extract_features_found
    (sentence homograph marked : str) (start end_ t : Z) :
  marked_sentence sentence start end_ = Ok marked ->
  find_target (word_tokenize marked) = t -> t <> -1 ->
  exists token v1 v2 v3 v4,
    nth_error (word_tokenize marked) (Z.to_nat t) = Some token /\
    _token_feature u (word_tokenize marked) (t - 1) = Ok v1 /\
    _token_feature u (word_tokenize marked) (t - 2) = Ok v2 /\
    _token_feature u (word_tokenize marked) (t + 1) = Ok v3 /\
    _token_feature u (word_tokenize marked) (t + 2) = Ok v4 /\
    extract_features word_tokenize u sentence homograph start end_ =
      Ok (feature_map v1 v2 v3 v4 (cap u (remove token underscore))).
Proof.
  intros Hm Ht Hne. set (tokens := word_tokenize marked) in *.
  pose proof (find_target_from_range tokens 0 ltac:(lia)) as Hr.
  fold (find_target tokens) in Hr. rewrite Ht in Hr.
  destruct Hr as [Hr|Hr]; [contradiction|].
  destruct (nth_error_in_range tokens t ltac:(lia)) as [token E].
  destruct (token_feature_returns u tokens (t - 1)) as (v1 & H1 & _).
  destruct (token_feature_returns u tokens (t - 2)) as (v2 & H2 & _).
  destruct (token_feature_returns u tokens (t + 1)) as (v3 & H3 & _).
  destruct (token_feature_returns u tokens (t + 2)) as (v4 & H4 & _).
  exists token, v1, v2, v3, v4. repeat (split; [assumption|]).
  unfold extract_features. rewrite Hm. cbn [bind].
  fold tokens. rewrite Ht.
  replace (t =? -1) with false by lia.
  rewrite (getitem_in_range tokens t token ltac:(lia) E). cbn [bind].
  rewrite H1, H2, H3, H4. cbn [bind].
  reflexivity.
Qed.
End Extract.

Lemma feature_map_lookup (v1 v2 v3 v4 c : str) :
  let fv := feature_map v1 v2 v3 v4 c in
  fv !! lit "t-1" = Some v1 /\
  fv !! lit "t-2" = Some v2 /\
  fv !! lit "t+1" = Some v3 /\
  fv !! lit "t+2" = Some v4 /\
  fv !! lit "t-2^t+1" = Some (join_caret v2 v2) /\
  fv !! lit "t+1^t+2" = Some (join_caret v3 v4) /\
  fv !! lit "t-1^t+1" = Some (join_caret v1 v3) /\
  fv !! lit "cap(t)" = Some c.
Proof. repeat split; reflexivity. Qed.

Lemma feature_map_dom (v1 v2 v3 v4 c : str) :
  dom (feature_map v1 v2 v3 v4 c) = feature_names.
Proof.
  unfold feature_map, feature_names.
  rewrite !dom_insert_L, dom_empty_L. set_solver.
Qed.

Section ExtractInversion.
Variable word_tokenize : str -> list str.
Variable u : Ucd.

Lemma extract_features_not_found
    (sentence homograph marked : str) (start end_ : Z) :
  marked_sentence sentence start end_ = Ok marked ->
  find_target (word_tokenize marked) = -1 ->
  extract_features word_tokenize u sentence homograph start end_ =
    Err (AssertionError homograph).
Proof.
  intros Hm Ht. unfold extract_features. rewrite Hm. cbn [bind].
  now rewrite Ht.
Qed.

Lemma extract_features_ok_inv
    (sentence homograph : str) (start end_ : Z) (fv : FeatureVector) :
  extract_features word_tokenize u sentence homograph start end_ = Ok fv ->
  exists marked,
    marked_sentence sentence start end_ = Ok marked /\
    find_target (word_tokenize marked) <> -1.
Proof.
  intros H.
  destruct (marked_sentence sentence start end_) as [marked|e] eqn:Hm.
  - exists marked. split; [reflexivity|]. intros Ht.
    rewrite (extract_features_not_found _ _ _ _ _ Hm Ht) in H.
    discriminate.
  - unfold extract_features in H. rewrite Hm in H. discriminate.
Qed.

(** What a successful call has done: the sentence was marked, the first
    token with two carets was found, and the vector holds the four
    positional values of its neighbours and the class of its text
    without underscores. *)
Lemma extract_features_ok
    (sentence homograph : str) (start end_ : Z) (fv : FeatureVector) :
  extract_features word_tokenize u sentence homograph start end_ = Ok fv ->
  exists marked token v1 v2 v3 v4,
    let tokens := word_tokenize marked in
    let t := find_target tokens in
    marked_sentence sentence start end_ = Ok marked /\
    0 <= t < len tokens /\
    nth_error tokens (Z.to_nat t) = Some token /\
    count token caret = 2 /\
    _token_feature u tokens (t - 1) = Ok v1 /\
    _token_feature u tokens (t - 2) = Ok v2 /\
    _token_feature u tokens (t + 1) = Ok v3 /\
    _token_feature u tokens (t + 2) = Ok v4 /\
    fv = feature_map v1 v2 v3 v4 (cap u (remove token underscore)).
Proof.
  intros H.
  destruct (extract_features_ok_inv _ _ _ _ _ H) as (marked & Hm & Hne).
  destruct (extract_features_found word_tokenize u _ homograph _ _ _ _
              Hm eq_refl Hne)
    as (token & v1 & v2 & v3 & v4 & E & H1 & H2 & H3 & H4 & Hfv).
  exists marked, token, v1, v2, v3, v4. cbn zeta.
  pose proof (find_target_from_range (word_tokenize marked) 0 ltac:(lia))
    as Hr.
  fold (find_target (word_tokenize marked)) in Hr.
  destruct (find_target_from_first (word_tokenize marked) 0 _
              ltac:(lia) eq_refl Hne) as (token' & E' & Hc & _).
  fold (find_target (word_tokenize marked)) in E'.
  rewrite Z.sub_0_r in E'. rewrite E in E'. injection E' as <-.
  repeat (split; [first [assumption | lia]|]).
  congruence.
Qed.
End ExtractInversion.

(** ** [count] and [remove] *)

Lemma count_app (s s' : str) (c : N) :
  count (s ++ s') c = count s c + count s' c.
Proof. induction s as [|x s IH]; cbn; [reflexivity | rewrite IH; lia]. Qed.

Lemma count_nonneg (s : str) (c : N) : 0 <= count s c.
Proof. induction s as [|x s IH]; cbn; [lia | destruct (x =? c)%N; lia]. Qed.

Lemma remove_filter (s : str) (c : N) :
  remove s c = List.filter (fun x => negb (x =? c)%N) s.
Proof.
  induction s as [|x s IH]; cbn; [reflexivity|].
  destruct (x =? c)%N; cbn; now rewrite IH.
Qed.

Lemma count_remove_same (s : str) (c : N) : count (remove s c) c = 0.
Proof.
  induction s as [|x s IH]; cbn; [reflexivity|].
  destruct (x =? c)%N eqn:E; cbn; [exact IH | rewrite E, IH; reflexivity].
Qed.

Lemma count_remove_other (s : str) (c d : N) :
  c <> d -> count (remove s c) d = count s d.
Proof.
  intros Hne. induction s as [|x s IH]; cbn; [reflexivity|].
  destruct (x =? c)%N eqn:E; cbn.
  - apply N.eqb_eq in E. subst x.
    replace (c =? d)%N with false by (symmetry; now apply N.eqb_neq).
    rewrite IH. lia.
  - now rewrite IH.
Qed.

Lemma find_target_exists (tokens : list str) :
  Exists (fun token => count token caret = 2) tokens ->
  find_target tokens <> -1.
Proof.
  intros Hex Hnone. apply find_target_from_none in Hnone; [|lia].
  apply List.Exists_exists in Hex. destruct Hex as (token & Hin & Hc).
  rewrite List.Forall_forall in Hnone. exact (Hnone token Hin Hc).
Qed.

(** ** What [extract_features] returns *)

(** C3: on every successful call the feature keyed "t-2^t+1" is the value
    of "t-2", a caret, and the value of "t-2" again: the value of "t+1"
    does not enter it. *)
Theorem t2_t1_feature_duplicates_t2
    (word_tokenize : str -> list str) (u : Ucd)
    (sentence homograph : str) (start end_ : Z) (fv : FeatureVector) :
  extract_features word_tokenize u sentence homograph start end_ = Ok fv ->
  exists v2 v3,
    fv !! lit "t-2" = Some v2 /\
    fv !! lit "t+1" = Some v3 /\
    fv !! lit "t-2^t+1" = Some (v2 ++ lit "^" ++ v2) /\
    (v2 <> v3 -> fv !! lit "t-2^t+1" <> Some (v2 ++ lit "^" ++ v3)).
Proof.
  intros H.
  destruct (extract_features_ok _ _ _ _ _ _ _ H)
    as (marked & token & v1 & v2 & v3 & v4
        & _ & _ & _ & _ & _ & _ & _ & _ & ->).
  pose proof (feature_map_lookup v1 v2 v3 v4
                (cap u (remove token underscore)))
    as (_ & L2 & L3 & _ & L & _).
  exists v2, v3. split; [exact L2|]. split; [exact L3|].
  split; [exact L|].
  intros Hne. rewrite L. unfold join_caret. intros [= E].
  apply app_inv_head in E. cbn in E. congruence.
Qed.

Lemma t2_t1_feature_duplicates_t2_witness :
  exists fv,
    extract_features split_tokenize latin1
      (lit "to record the record .") (lit "record") 14 20 = Ok fv /\
    fv !! lit "t-2" = Some (lit "record") /\
    fv !! lit "t+1" = Some (lit ".") /\
    fv !! lit "t-2^t+1" = Some (lit "record^record").
Proof.
  assert (E : extract_features split_tokenize latin1
                (lit "to record the record .") (lit "record") 14 20
              = Ok (feature_map (lit "the") (lit "record") (lit ".")
                      (lit "[^]") (lit "lower")))
    by (vm_compute; reflexivity).
  destruct (t2_t1_feature_duplicates_t2 _ _ _ _ _ _ _ E)
    as (v2 & v3 & H2 & H3 & H & _).
  eexists. split; [exact E|].
  assert (E2 : v2 = lit "record")
    by (vm_compute in H2; injection H2 as <-; reflexivity).
  assert (E3 : v3 = lit ".")
    by (vm_compute in H3; injection H3 as <-; reflexivity).
  subst v2 v3. split; [exact H2|]. split; [exact H3|]. exact H.
Defined.

(** C2, as stated, fails: only underscores are taken out of the target
    token, the carets stay.  On "PreRecord" with the span on "Record" the
    token is "Pre^Record^"; that text, carets included, is what is
    classified, and it is title-cased, where "PreRecord" is not. *)
Lemma clean_target_keeps_carets :
  marked_sentence (lit "PreRecord") 3 9 = Ok (lit "Pre^Record^") /\
  split_tokenize (lit "Pre^Record^") = [lit "Pre^Record^"] /\
  remove (lit "Pre^Record^") underscore = lit "Pre^Record^" /\
  remove (remove (lit "Pre^Record^") underscore) caret = lit "PreRecord" /\
  extract_features split_tokenize latin1
    (lit "PreRecord") (lit "Record") 3 9
    = Ok (feature_map (lit "[$]") (lit "[$]") (lit "[^]") (lit "[^]")
            (lit "title")) /\
  cap latin1 (lit "PreRecord") = lit "na" /\
  lit "title" <> lit "na".
Proof. repeat split; try (vm_compute; reflexivity). discriminate. Qed.

(** C2, amended: on every successful call the text classified by cap(t)
    is the target token with its underscores removed and nothing else:
    it has no underscore left and still holds the token's two carets. *)
Theorem clean_target_strips_underscores
    (word_tokenize : str -> list str) (u : Ucd)
    (sentence homograph : str) (start end_ : Z) (fv : FeatureVector) :
  extract_features word_tokenize u sentence homograph start end_ = Ok fv ->
  exists marked token,
    marked_sentence sentence start end_ = Ok marked /\
    nth_error (word_tokenize marked)
      (Z.to_nat (find_target (word_tokenize marked))) = Some token /\
    let target := remove token underscore in
    fv !! lit "cap(t)" = Some (cap u target) /\
    target = List.filter (fun c => negb (c =? underscore)%N) token /\
    count target underscore = 0 /\
    count target caret = 2.
Proof.
  intros H.
  destruct (extract_features_ok _ _ _ _ _ _ _ H)
    as (marked & token & v1 & v2 & v3 & v4
        & Hm & _ & E & Hc & _ & _ & _ & _ & ->).
  exists marked, token. split; [exact Hm|]. split; [exact E|]. cbn zeta.
  split; [apply feature_map_lookup|].
  split; [apply remove_filter|].
  split; [apply count_remove_same|].
  rewrite count_remove_other; [exact Hc | discriminate].
Qed.

Lemma clean_target_strips_underscores_witness :
  exists fv,
    extract_features split_tokenize latin1
      (lit "a re_cord here") (lit "re_cord") 2 9 = Ok fv /\
    fv !! lit "cap(t)" = Some (cap latin1 (lit "^record^")).
Proof.
  assert (E : extract_features split_tokenize latin1
                (lit "a re_cord here") (lit "re_cord") 2 9
              = Ok (feature_map (lit "a") (lit "[$]") (lit "here")
                      (lit "[^]") (lit "lower")))
    by (vm_compute; reflexivity).
  destruct (clean_target_strips_underscores _ _ _ _ _ _ _ E)
    as (marked & token & Hm & Ht & Hcap & _).
  eexists. split; [exact E|].
  assert (Em : marked = lit "a ^re_cord^ here")
    by (vm_compute in Hm; injection Hm as <-; reflexivity).
  subst marked.
  assert (Et : token = lit "^re_cord^")
    by (vm_compute in Ht; injection Ht as <-; reflexivity).
  subst token. exact Hcap.
Defined.

(** C1, as stated, fails: when more than one token holds two carets the
    call does not fail, the first such token is taken.  Here the sentence
    has carets of its own; the token "a^b^c" is taken as the target, and
    the marked homograph "^record^" is its right neighbour. *)
Lemma two_qualifying_tokens_succeed :
  marked_sentence (lit "a^b^c record") 6 12 = Ok (lit "a^b^c ^record^") /\
  split_tokenize (lit "a^b^c ^record^") = [lit "a^b^c"; lit "^record^"] /\
  count (lit "a^b^c") caret = 2 /\
  count (lit "^record^") caret = 2 /\
  extract_features split_tokenize latin1
    (lit "a^b^c record") (lit "record") 6 12
    = Ok (feature_map (lit "[$]") (lit "[$]") (lit "^record^") (lit "[^]")
            (lit "lower")).
Proof. repeat split; vm_compute; reflexivity. Qed.

(** C1, amended: once the sentence is marked and tokenized, the target is
    the first token holding exactly two carets, and the features are taken
    around it.  The call fails with the assertion error that names the
    homograph exactly when no token qualifies, as when each delimiter ends
    up in a token of its own; when several tokens qualify it does not
    fail. *)
Theorem target_is_first_token_with_two_carets
    (word_tokenize : str -> list str) (u : Ucd)
    (sentence homograph marked : str) (start end_ : Z) :
  marked_sentence sentence start end_ = Ok marked ->
  let tokens := word_tokenize marked in
  let call := extract_features word_tokenize u sentence homograph start end_ in
  (Forall (fun token => count token caret <> 2) tokens ->
   call = Err (AssertionError homograph)) /\
  (Forall (fun token => count token caret <= 1) tokens ->
   call = Err (AssertionError homograph)) /\
  (Exists (fun token => count token caret = 2) tokens ->
   exists (t : nat) token v1 v2 v3 v4,
     nth_error tokens t = Some token /\
     count token caret = 2 /\
     (forall (j : nat) token',
        (j < t)%nat -> nth_error tokens j = Some token' ->
        count token' caret <> 2) /\
     _token_feature u tokens (Z.of_nat t - 1) = Ok v1 /\
     _token_feature u tokens (Z.of_nat t - 2) = Ok v2 /\
     _token_feature u tokens (Z.of_nat t + 1) = Ok v3 /\
     _token_feature u tokens (Z.of_nat t + 2) = Ok v4 /\
     call = Ok (feature_map v1 v2 v3 v4 (cap u (remove token underscore)))).
Proof.
  intros Hm tokens call.
  assert (Hnone : Forall (fun token => count token caret <> 2) tokens ->
                  call = Err (AssertionError homograph)).
  { intros HF. apply (extract_features_not_found _ _ _ _ marked); [exact Hm|].
    apply find_target_from_none; [lia | exact HF]. }
  split; [exact Hnone|]. split.
  - intros HF. apply Hnone. eapply Forall_impl; [exact HF|].
    cbn. intros token Hle. lia.
  - intros Hex. apply find_target_exists in Hex.
    destruct (extract_features_found word_tokenize u sentence homograph
                marked start end_ _ Hm eq_refl Hex)
      as (token & v1 & v2 & v3 & v4 & E & H1 & H2 & H3 & H4 & Hfv).
    destruct (find_target_from_first tokens 0 _ ltac:(lia) eq_refl Hex)
      as (token' & E' & Hc & Hfirst).
    pose proof (find_target_from_range tokens 0 ltac:(lia)) as Hr.
    fold (find_target tokens) in E', Hfirst, Hr.
    fold tokens in E, H1, H2, H3, H4, Hex.
    destruct Hr as [Hr|Hr]; [contradiction|].
    rewrite Z.sub_0_r in E', Hfirst.
    rewrite E in E'. injection E' as <-.
    exists (Z.to_nat (find_target tokens)), token, v1, v2, v3, v4.
    rewrite Z2Nat.id by lia.
    repeat (split; [assumption|]). exact Hfv.
Qed.

Lemma target_is_first_token_with_two_carets_witness :
  extract_features split_tokenize latin1 (lit "rec ord") (lit "rec ord") 0 7
    = Err (AssertionError (lit "rec ord")) /\
  exists (t : nat) token v1 v2 v3 v4,
    nth_error (split_tokenize (lit "a^b^c ^record^")) t = Some token /\
    count token caret = 2 /\
    extract_features split_tokenize latin1
      (lit "a^b^c record") (lit "record") 6 12
      = Ok (feature_map v1 v2 v3 v4 (cap latin1 (remove token underscore))).
Proof.
  split.
  - pose proof (target_is_first_token_with_two_carets
                  split_tokenize latin1 (lit "rec ord") (lit "rec ord")
                  (lit "^rec ord^") 0 7 eq_refl) as (_ & H & _).
    apply H. repeat constructor; vm_compute; discriminate.
  - pose proof (target_is_first_token_with_two_carets
                  split_tokenize latin1 (lit "a^b^c record") (lit "record")
                  (lit "a^b^c ^record^") 6 12 eq_refl) as (_ & _ & H).
    destruct H as (t & token & v1 & v2 & v3 & v4
                   & E & Hc & Hfirst & H1 & H2 & H3 & H4 & Hcall).
    { apply Exists_cons_hd. reflexivity. }
    exists t, token, v1, v2, v3, v4. auto.
Defined.

(** C5, as stated, fails: a bracketed token that holds a caret of its own
    carries three carets once marked, so no token qualifies and the call
    raises. *)
Lemma bracketed_token_with_caret_raises :
  encode (lit "a^b") = Ok [x61; x5e; x62] /\
  decode (slice [x61; x5e; x62] (Some 0) (Some 3)) = Ok (lit "a^b") /\
  split_tokenize (lit "a^b") = [lit "a^b"] /\
  marked_sentence (lit "a^b") 0 3 = Ok (lit "^a^b^") /\
  split_tokenize (lit "^a^b^") = [lit "^a^b^"] /\
  extract_features split_tokenize latin1 (lit "a^b") (lit "a^b") 0 3
    = Err (AssertionError (lit "a^b")).
Proof. repeat split; vm_compute; reflexivity. Qed.

(** C5, amended: when the span's text holds no caret and, between its two
    carets, is one of the tokens of the marked sentence, the call returns
    a vector whose keys are exactly the eight feature names. *)
Theorem bracketed_token_gives_the_eight_features
    (word_tokenize : str -> list str) (u : Ucd)
    (sentence homograph text marked : str) (sentence_b : bytes)
    (start end_ : Z) :
  encode sentence = Ok sentence_b ->
  decode (slice sentence_b (Some start) (Some end_)) = Ok text ->
  count text caret = 0 ->
  marked_sentence sentence start end_ = Ok marked ->
  In ([caret] ++ text ++ [caret]) (word_tokenize marked) ->
  exists fv,
    extract_features word_tokenize u sentence homograph start end_ = Ok fv /\
    dom fv = feature_names.
Proof.
  intros _ _ Hc Hm Hin.
  assert (Hex : find_target (word_tokenize marked) <> -1).
  { apply find_target_exists. apply List.Exists_exists.
    eexists. split; [exact Hin|].
    rewrite !count_app, Hc. reflexivity. }
  destruct (extract_features_found word_tokenize u sentence homograph
              marked start end_ _ Hm eq_refl Hex)
    as (token & v1 & v2 & v3 & v4 & _ & _ & _ & _ & _ & Hfv).
  eexists. split; [exact Hfv|]. apply feature_map_dom.
Qed.

Lemma bracketed_token_gives_the_eight_features_witness :
  exists fv,
    extract_features split_tokenize latin1
      (lit "to record the record .") (lit "record") 14 20 = Ok fv /\
    dom fv = feature_names.
Proof.
  apply (bracketed_token_gives_the_eight_features
           split_tokenize latin1 (lit "to record the record .") (lit "record")
           (lit "record") (lit "to record the ^record^ .")
           (List.map byte_of_N (lit "to record the record .")) 14 20).
  - vm_compute. reflexivity.
  - vm_compute. reflexivity.
  - reflexivity.
  - vm_compute. reflexivity.
  - vm_compute. tauto.
Defined.

(** ** Capitalization classes *)

Section Capitalization.
Variable u : Ucd.
Implicit Types (s : str) (c : N).

Lemma isupper_loop_spec s (cased : bool) :
  isupper_loop u cased s = true <->
  (cased = true \/ has_cased u s) /\ all_cased_are u Upper s.
Proof.
  unfold has_cased, all_cased_are.
  revert cased. induction s as [|c s IH]; intros cased; cbn.
  - split.
    + intros ->. split; [now left | constructor].
    + intros [[H|H] _]; [exact H | inversion H].
  - destruct (case_of u c) eqn:E.
    + rewrite IH. split.
      * intros [_ HF]. split.
        -- right. apply Exists_cons_hd. congruence.
        -- constructor; [congruence | exact HF].
      * intros [_ HF]. inversion HF; subst. split; [now left | assumption].
    + split; [discriminate|]. intros [_ HF]. inversion HF as [|? ? Hc _].
      rewrite E in Hc. discriminate Hc. discriminate.
    + split; [discriminate|]. intros [_ HF]. inversion HF as [|? ? Hc _].
      rewrite E in Hc. discriminate Hc. discriminate.
    + rewrite IH. split.
      * intros [[H|H] HF].
        -- split; [now left | constructor; [congruence | exact HF]].
        -- split; [right; now apply Exists_cons_tl
                  | constructor; [congruence | exact HF]].
      * intros [[H|H] HF]; inversion HF; subst.
        -- split; [now left | assumption].
        -- split; [|assumption]. right.
           inversion H; subst; [congruence | assumption].
Qed.

Lemma islower_loop_spec s (cased : bool) :
  islower_loop u cased s = true <->
  (cased = true \/ has_cased u s) /\ all_cased_are u Lower s.
Proof.
  unfold has_cased, all_cased_are.
  revert cased. induction s as [|c s IH]; intros cased; cbn.
  - split.
    + intros ->. split; [now left | constructor].
    + intros [[H|H] _]; [exact H | inversion H].
  - destruct (case_of u c) eqn:E.
    + split; [discriminate|]. intros [_ HF]. inversion HF as [|? ? Hc _].
      rewrite E in Hc. discriminate Hc. discriminate.
    + rewrite IH. split.
      * intros [_ HF]. split.
        -- right. apply Exists_cons_hd. congruence.
        -- constructor; [congruence | exact HF].
      * intros [_ HF]. inversion HF; subst. split; [now left | assumption].
    + split; [discriminate|]. intros [_ HF]. inversion HF as [|? ? Hc _].
      rewrite E in Hc. discriminate Hc. discriminate.
    + rewrite IH. split.
      * intros [[H|H] HF].
        -- split; [now left | constructor; [congruence | exact HF]].
        -- split; [right; now apply Exists_cons_tl
                  | constructor; [congruence | exact HF]].
      * intros [[H|H] HF]; inversion HF; subst.
        -- split; [now left | assumption].
        -- split; [|assumption]. right.
           inversion H; subst; [congruence | assumption].
Qed.

Lemma isupper_spec s :
  isupper u s = true <-> has_cased u s /\ all_cased_are u Upper s.
Proof.
  unfold isupper. rewrite isupper_loop_spec.
  split; intros [H HF]; (split; [|exact HF]); [|now right].
  destruct H as [H|H]; [discriminate | exact H].
Qed.

Lemma islower_spec s :
  islower u s = true <-> has_cased u s /\ all_cased_are u Lower s.
Proof.
  unfold islower. rewrite islower_loop_spec.
  split; intros [H HF]; (split; [|exact HF]); [|now right].
  destruct H as [H|H]; [discriminate | exact H].
Qed.

Lemma case_before_cons (first : casing) c s (j : nat) :
  case_before u first (c :: s) (S j) = case_before u (case_of u c) s j.
Proof. destruct j; reflexivity. Qed.

Lemma may_follow_cons (first : casing) c s :
  (forall (i : nat) c',
     nth_error (c :: s) i = Some c' ->
     may_follow (case_before u first (c :: s) i) (case_of u c')) <->
  may_follow first (case_of u c) /\
  (forall (j : nat) c',
     nth_error s j = Some c' ->
     may_follow (case_before u (case_of u c) s j) (case_of u c')).
Proof.
  split.
  - intros H. split.
    + exact (H O c eq_refl).
    + intros j c' Hj. rewrite <- (case_before_cons first). now apply (H (S j)).
  - intros [H0 H] [|j] c' Hi.
    + injection Hi as <-. exact H0.
    + rewrite case_before_cons. now apply H.
Qed.

Lemma istitle_loop_spec s (cased previous_is_cased : bool) (first : casing) :
  (previous_is_cased = true <-> first <> Uncased) ->
  istitle_loop u cased previous_is_cased s = true <->
  (cased = true \/ has_cased u s) /\
  (forall (i : nat) c,
     nth_error s i = Some c ->
     may_follow (case_before u first s i) (case_of u c)).
Proof.
  revert cased previous_is_cased first.
  induction s as [|c s IH]; intros cased previous first Hprev.
  - cbn. split.
    + intros ->. split; [now left|]. intros [|i] c H; discriminate H.
    + intros [[H|H] _]; [exact H | inversion H].
  - rewrite (may_follow_cons first c s). cbn [istitle_loop].
    assert (Hcons : forall b : bool,
               case_of u c <> Uncased ->
               (b = true \/ has_cased u (c :: s)) <->
               (true = true \/ has_cased u s)).
    { intros b Hc. split; intros _; [now left|].
      right. now apply Exists_cons_hd. }
    assert (Hskip : case_of u c = Uncased ->
               (cased = true \/ has_cased u (c :: s)) <->
               (cased = true \/ has_cased u s)).
    { intros Hc. split; (intros [H|H]; [now left|]); right.
      - inversion H; subst; [contradiction | assumption].
      - now apply Exists_cons_tl. }
    destruct (case_of u c) eqn:E; cbn [may_follow].
    + destruct previous.
      * split; [discriminate|]. intros (_ & Hf & _).
        apply Hprev in Hf; [contradiction | reflexivity].
      * rewrite (IH true true Upper) by (split; [discriminate | reflexivity]).
        rewrite (Hcons cased) by discriminate.
        split; [intros [H1 H2] | intros (H1 & _ & H2)]; repeat split; auto.
        destruct first; try reflexivity;
          (assert (false = true) by (apply Hprev; discriminate); discriminate).
    + destruct previous.
      * rewrite (IH true true Lower) by (split; [discriminate | reflexivity]).
        rewrite (Hcons cased) by discriminate.
        split; [intros [H1 H2] | intros (H1 & _ & H2)]; repeat split; auto.
        now apply Hprev.
      * split; [discriminate|]. intros (_ & Hf & _).
        apply Hprev in Hf. discriminate Hf.
    + destruct previous.
      * split; [discriminate|]. intros (_ & Hf & _).
        apply Hprev in Hf; [contradiction | reflexivity].
      * rewrite (IH true true Title) by (split; [discriminate | reflexivity]).
        rewrite (Hcons cased) by discriminate.
        split; [intros [H1 H2] | intros (H1 & _ & H2)]; repeat split; auto.
        destruct first; try reflexivity;
          (assert (false = true) by (apply Hprev; discriminate); discriminate).
    + rewrite (IH cased false Uncased)
        by (split; [discriminate | intros H; now contradiction H]).
      rewrite (Hskip eq_refl).
      split; [intros [H1 H2] | intros (H1 & _ & H2)]; repeat split; auto.
Qed.

Lemma istitle_spec s : istitle u s = true <-> titlecased u s.
Proof.
  unfold istitle, titlecased.
  rewrite (istitle_loop_spec s false false Uncased)
    by (split; [discriminate | intros H; now contradiction H]).
  split; intros [H HF]; (split; [|exact HF]); [|now right].
  destruct H as [H|H]; [discriminate | exact H].
Qed.

(** Exactly one branch of lines 63-70 is taken. *)
Lemma cap_cases s :
  let upper := has_cased u s /\ all_cased_are u Upper s in
  let lower := has_cased u s /\ all_cased_are u Lower s in
  (upper -> cap u s = lit "upper") /\
  (~ upper -> lower -> cap u s = lit "lower") /\
  (~ upper -> ~ lower -> titlecased u s -> cap u s = lit "title") /\
  (~ upper -> ~ lower -> ~ titlecased u s -> cap u s = lit "na").
Proof.
  cbn zeta. rewrite <- isupper_spec, <- islower_spec, <- istitle_spec.
  unfold cap.
  destruct (isupper u s), (islower u s), (istitle u s);
    repeat split; intros; try reflexivity; congruence.
Qed.

Lemma upper_excludes_lower s :
  has_cased u s -> all_cased_are u Upper s -> all_cased_are u Lower s ->
  False.
Proof.
  unfold has_cased, all_cased_are. intros Hex HU HL.
  apply List.Exists_exists in Hex. destruct Hex as (c & Hin & Hc).
  rewrite List.Forall_forall in HU, HL.
  specialize (HU c Hin Hc). specialize (HL c Hin Hc). congruence.
Qed.
End Capitalization.

Ltac classify_ascii H :=
  let Hc := fresh "Hc" in
  let Hl := fresh "Hl" in
  destruct H as [Hc Hl]; unfold caret in Hc;
  match goal with
  | |- cap ?u ?s = ?r =>
      let s' := eval vm_compute in s in change (cap u s' = r)
  end;
  unfold cap, isupper, islower, istitle;
  cbn [isupper_loop islower_loop istitle_loop];
  repeat match goal with
    | |- context [case_of ?u ?c] =>
        first [ rewrite (proj1 (Hl c)) by lia
              | rewrite (proj2 (Hl c)) by lia
              | rewrite Hc ]
    end;
  reflexivity.

Lemma cap_ascii_examples (u : Ucd) :
  ascii_cases u ->
  cap u (lit "RECORD") = lit "upper" /\
  cap u (lit "record") = lit "lower" /\
  cap u (lit "Record") = lit "title" /\
  cap u (lit "ReCoRd") = lit "na" /\
  cap u (lit "^RECORD^") = lit "upper" /\
  cap u (lit "^record^") = lit "lower" /\
  cap u (lit "^Record^") = lit "title" /\
  cap u (lit "^ReCoRd^") = lit "na".
Proof.
  intros H. repeat split; classify_ascii H.
Qed.

Lemma between_spec (lo x hi : N) :
  between lo x hi = true <-> (lo <= x <= hi)%N.
Proof.
  unfold between. rewrite andb_true_iff, !N.leb_le. reflexivity.
Qed.

Lemma between_false (lo x hi : N) :
  (x < lo \/ hi < x)%N -> between lo x hi = false.
Proof.
  intros H. destruct (between lo x hi) eqn:E; [|reflexivity].
  apply between_spec in E. lia.
Qed.

Lemma latin1_ascii_cases : ascii_cases latin1.
Proof.
  split; [reflexivity|]. intros c. cbn [latin1 case_of]. unfold latin1_case.
  split; intros Hr.
  - rewrite (proj2 (between_spec 65 c 90) Hr). reflexivity.
  - rewrite !between_false by lia.
    rewrite (proj2 (between_spec 97 c 122) Hr). reflexivity.
Qed.

(** C8, as stated, fails: a target without any cased character is not
    "upper", although all its cased characters (there are none) are
    uppercase.  For the sentence "42" the program answers "na". *)
Lemma caseless_target_is_na :
  marked_sentence (lit "42") 0 2 = Ok (lit "^42^") /\
  split_tokenize (lit "^42^") = [lit "^42^"] /\
  remove (lit "^42^") underscore = lit "^42^" /\
  all_cased_are latin1 Upper (lit "^42^") /\
  all_cased_are latin1 Upper (lit "42") /\
  extract_features split_tokenize latin1 (lit "42") (lit "42") 0 2
    = Ok (feature_map (lit "[$]") (lit "[$]") (lit "[^]") (lit "[^]")
            (lit "na")) /\
  lit "na" <> lit "upper".
Proof.
  repeat split; try (vm_compute; reflexivity); try discriminate;
    repeat constructor; vm_compute; congruence.
Qed.

(** C8, amended: on every successful call cap(t) is "upper" if the
    classified text has a cased character and all its cased characters
    are uppercase, "lower" if it has a cased character and all are
    lowercase, "title" if it is neither and is title-cased, and "na"
    otherwise.  With the ASCII letters cased as in Unicode, the forms
    "RECORD", "record", "Record" and "ReCoRd" are "upper", "lower",
    "title" and "na", with or without the carets around them. *)
Theorem cap_feature_classes
    (word_tokenize : str -> list str) (u : Ucd)
    (sentence homograph : str) (start end_ : Z) (fv : FeatureVector) :
  (extract_features word_tokenize u sentence homograph start end_ = Ok fv ->
   exists marked token c,
     marked_sentence sentence start end_ = Ok marked /\
     nth_error (word_tokenize marked)
       (Z.to_nat (find_target (word_tokenize marked))) = Some token /\
     fv !! lit "cap(t)" = Some c /\
     let target := remove token underscore in
     let upper := has_cased u target /\ all_cased_are u Upper target in
     let lower := has_cased u target /\ all_cased_are u Lower target in
     (upper -> c = lit "upper") /\
     (lower -> c = lit "lower") /\
     (~ upper -> ~ lower -> titlecased u target -> c = lit "title") /\
     (~ upper -> ~ lower -> ~ titlecased u target -> c = lit "na")) /\
  (ascii_cases u ->
   cap u (lit "RECORD") = lit "upper" /\
   cap u (lit "record") = lit "lower" /\
   cap u (lit "Record") = lit "title" /\
   cap u (lit "ReCoRd") = lit "na" /\
   cap u (lit "^RECORD^") = lit "upper" /\
   cap u (lit "^record^") = lit "lower" /\
   cap u (lit "^Record^") = lit "title" /\
   cap u (lit "^ReCoRd^") = lit "na").
Proof.
  split; [|apply cap_ascii_examples].
  intros H.
  destruct (extract_features_ok _ _ _ _ _ _ _ H)
    as (marked & token & v1 & v2 & v3 & v4
        & Hm & _ & E & _ & _ & _ & _ & _ & ->).
  exists marked, token, (cap u (remove token underscore)).
  split; [exact Hm|]. split; [exact E|].
  split; [apply feature_map_lookup|]. cbn zeta.
  pose proof (cap_cases u (remove token underscore)) as (HU & HL & HT & HN).
  repeat split; auto.
  intros [Hc HF]. apply HL; [|now split].
  intros [_ HF']. exact (upper_excludes_lower u _ Hc HF' HF).
Qed.

Lemma cap_feature_classes_witness :
  (exists fv,
     extract_features split_tokenize latin1
       (lit "a Record") (lit "Record") 2 8 = Ok fv /\
     fv !! lit "cap(t)" = Some (lit "title")) /\
  cap latin1 (lit "RECORD") = lit "upper" /\
  cap latin1 (lit "ReCoRd") = lit "na".
Proof.
  assert (E : extract_features split_tokenize latin1
                (lit "a Record") (lit "Record") 2 8
              = Ok (feature_map (lit "a") (lit "[$]") (lit "[^]")
                      (lit "[^]") (lit "title")))
    by (vm_compute; reflexivity).
  pose proof (cap_feature_classes split_tokenize latin1
                (lit "a Record") (lit "Record") 2 8
                (feature_map (lit "a") (lit "[$]") (lit "[^]")
                   (lit "[^]") (lit "title"))) as [H Hex].
  destruct (H E) as (marked & token & c & Hm & Ht & Hc & _).
  destruct Hex as (HU & _ & _ & HN & _).
  { apply latin1_ascii_cases. }
  split; [|split; assumption].
  eexists. split; [exact E|]. apply feature_map_lookup.
Defined.

(** ** The pass over a corpus file *)

Section File.
Variable word_tokenize : str -> list str.
Variable u : Ucd.
Variable int : str -> result Z.

Local Abbreviation per_row := (row_features word_tokenize u int).

Lemma extract_features_rows_cons
    (row : Row) (rest : list Row)
    (features : FeatureVectors) (labels : list str) :
  extract_features_rows word_tokenize u int (row :: rest) features labels =
  do fv <- per_row row in
  extract_features_rows word_tokenize u int rest
    (features ++ [fv]) (labels ++ [wordid row]).
Proof.
  cbn [extract_features_rows]. unfold row_features.
  destruct (int (start row)); [|reflexivity]. cbn [bind].
  destruct (int (end_ row)); reflexivity.
Qed.

Lemma extract_features_rows_ok
    (rows : list Row) (fvs features : FeatureVectors) (labels : list str) :
  Forall2 (fun row fv => per_row row = Ok fv) rows fvs ->
  extract_features_rows word_tokenize u int rows features labels =
    Ok (features ++ fvs, labels ++ List.map wordid rows).
Proof.
  intros H. revert features labels.
  induction H as [|row fv rows fvs Hrow _ IH]; intros features labels.
  - cbn. now rewrite !app_nil_r.
  - rewrite extract_features_rows_cons, Hrow. cbn [bind].
    rewrite IH. cbn [List.map]. now rewrite <- !app_assoc.
Qed.

Lemma extract_features_rows_err
    (before : list Row) (row : Row) (after : list Row) (e : exn)
    (features : FeatureVectors) (labels : list str) :
  Forall (fun r => exists fv, per_row r = Ok fv) before ->
  per_row row = Err e ->
  extract_features_rows word_tokenize u int
    (before ++ row :: after) features labels = Err e.
Proof.
  intros H Hrow. revert features labels.
  induction H as [|r before [fv Hr] _ IH]; intros features labels.
  - cbn [app]. now rewrite extract_features_rows_cons, Hrow.
  - cbn [app]. rewrite extract_features_rows_cons, Hr. cbn [bind]. apply IH.
Qed.

Lemma all_rows_ok (rows : list Row) :
  Forall (fun r => exists fv, per_row r = Ok fv) rows ->
  exists fvs,
    Forall2 (fun row fv => per_row row = Ok fv) rows fvs.
Proof.
  induction 1 as [|r rows [fv Hr] _ [fvs IH]].
  - exists []. constructor.
  - exists (fv :: fvs). now constructor.
Qed.

Lemma first_failing_row (rows : list Row) :
  Exists (fun r => exists e, per_row r = Err e) rows ->
  exists before row after e,
    rows = before ++ row :: after /\
    Forall (fun r => exists fv, per_row r = Ok fv) before /\
    per_row row = Err e.
Proof.
  induction rows as [|r rows IH]; intros H; [inversion H|].
  destruct (per_row r) as [fv|e] eqn:Hr.
  - destruct IH as (before & row & after & e & -> & Hb & Hrow).
    { inversion H as [? ? [e He]|]; subst; [congruence | assumption]. }
    exists (r :: before), row, after, e.
    split; [reflexivity|]. split; [|exact Hrow].
    constructor; [now exists fv | exact Hb].
  - exists [], r, rows, e.
    split; [reflexivity|]. split; [constructor | exact Hr].
Qed.
End File.

(** C9: on a file all of whose rows extract, the pass returns two lists of
    the file's length, the features and the [wordid] of each row in the
    reader's order; when a row fails, the pass fails with the error of the
    first row that does, and returns no lists. *)
Theorem extract_features_file_all_or_nothing
    (word_tokenize : str -> list str) (u : Ucd) (int : str -> result Z)
    (DictReader : str -> list Row) (path : str) :
  let rows := DictReader path in
  let per_row := row_features word_tokenize u int in
  let pass := extract_features_file word_tokenize u int DictReader path in
  (Forall (fun row => exists fv, per_row row = Ok fv) rows ->
   exists features labels,
     pass = Ok (features, labels) /\
     length features = length rows /\
     length labels = length rows /\
     labels = List.map wordid rows /\
     Forall2 (fun row fv => per_row row = Ok fv) rows features) /\
  (Exists (fun row => exists e, per_row row = Err e) rows ->
   exists before row after e,
     rows = before ++ row :: after /\
     Forall (fun r => exists fv, per_row r = Ok fv) before /\
     per_row row = Err e /\
     pass = Err e).
Proof.
  intros rows per_row pass. split.
  - intros H. destruct (all_rows_ok _ _ _ _ H) as [fvs Hfvs].
    exists fvs, (List.map wordid rows).
    split; [exact (extract_features_rows_ok _ _ _ _ _ [] [] Hfvs)|].
    split; [symmetry; eapply Forall2_length; exact Hfvs|].
    split; [apply length_map|]. split; [reflexivity | exact Hfvs].
  - intros H.
    destruct (first_failing_row _ _ _ _ H)
      as (before & row & after & e & Hrows & Hb & Hrow).
    exists before, row, after, e. repeat (split; [assumption|]).
    unfold pass, extract_features_file. fold rows. rewrite Hrows.
    now apply extract_features_rows_err.
Qed.

Lemma extract_features_file_all_or_nothing_witness :
  (exists features labels,
     extract_features_file split_tokenize latin1 decimal
       (fun _ => [example_row; example_row]) (lit "record.tsv")
       = Ok (features, labels) /\
     length features = 2%nat /\
     labels = [lit "record_nou"; lit "record_nou"]) /\
  extract_features_file split_tokenize latin1 decimal
    (fun _ => [example_row; example_bad_row; example_row]) (lit "record.tsv")
    = Err (AssertionError (lit "rec ord")).
Proof.
  assert (Hgood : row_features split_tokenize latin1 decimal example_row
                  = Ok (feature_map (lit "the") (lit "record") (lit ".")
                          (lit "[^]") (lit "lower")))
    by (vm_compute; reflexivity).
  assert (Hbad : row_features split_tokenize latin1 decimal example_bad_row
                 = Err (AssertionError (lit "rec ord")))
    by (vm_compute; reflexivity).
  split.
  - pose proof (extract_features_file_all_or_nothing
                  split_tokenize latin1 decimal
                  (fun _ => [example_row; example_row]) (lit "record.tsv"))
      as [H _].
    destruct H as (features & labels & Hpass & Hlen & _ & Hlabels & _).
    { repeat constructor; eexists; exact Hgood. }
    exists features, labels. split; [exact Hpass|].
    split; [exact Hlen | exact Hlabels].
  - pose proof (extract_features_file_all_or_nothing
                  split_tokenize latin1 decimal
                  (fun _ => [example_row; example_bad_row; example_row])
                  (lit "record.tsv"))
      as [_ H].
    destruct H as (before & row & after & e & Hrows & Hb & Hrow & Hpass).
    { apply Exists_cons_tl, Exists_cons_hd. eexists. exact Hbad. }
    rewrite Hpass. f_equal.
    destruct before as [|r0 [|r1 before]]; cbn in Hrows.
    + injection Hrows as <- _. rewrite Hgood in Hrow. discriminate.
    + injection Hrows as _ <- _. rewrite Hbad in Hrow. congruence.
    + injection Hrows as _ <- _. inversion Hb as [|? ? _ Hb']. subst.
      inversion Hb' as [|? ? [fv Hfv] _]. subst.
      rewrite Hbad in Hfv. discriminate.
Defined.

(** ** The accuracies *)

Lemma sum_Zsum (l : list Z) : sum l = Zsum l.
Proof.
  unfold sum. assert (H : forall a, fold_left Z.add l a = a + Zsum l).
  { induction l as [|x l IH]; intros a; cbn [fold_left].
    - cbn. lia.
    - rewrite IH. change (Zsum (x :: l)) with (x + Zsum l). lia. }
  now rewrite H.
Qed.

Lemma Zsum_pos (l : list Z) :
  l <> [] -> Forall (fun s => 0 < s) l -> 0 < Zsum l.
Proof.
  intros Hne H. destruct H as [|s l Hs H]; [congruence|].
  change (Zsum (s :: l)) with (s + Zsum l).
  assert (0 <= Zsum l); [|lia].
  clear Hne Hs. induction H as [|x l Hx _ IH]; [cbn; lia|].
  change (Zsum (x :: l)) with (x + Zsum l). lia.
Qed.

Lemma fold_left_Qplus (l : list Q) (a : Q) :
  (fold_left Qplus l a == a + Qsum l)%Q.
Proof.
  revert a. induction l as [|x l IH]; intros a; cbn [fold_left].
  - cbn. now rewrite Qplus_0_r.
  - rewrite IH. change (Qsum (x :: l)) with (x + Qsum l)%Q.
    now rewrite Qplus_assoc.
Qed.

Lemma combine_fst_snd {A B} (l : list (A * B)) :
  combine (List.map fst l) (List.map snd l) = l.
Proof.
  induction l as [|[a b] l IH]; cbn; [reflexivity | now rewrite IH].
Qed.

Lemma ratios_ok (results : list (Z * Z)) :
  Forall (fun r => 0 < snd r) results ->
  ratios results = Ok (List.map ratio results).
Proof.
  induction 1 as [|[c s] results Hs _ IH]; cbn; [reflexivity|].
  unfold truediv. cbn in Hs. replace (s =? 0) with false by lia.
  cbn [bind]. rewrite IH. reflexivity.
Qed.

(** C4, as stated, fails: unequal file sizes do not make the two
    accuracies differ.  For the results (1, 2) and (2, 4) both are one
    half. *)
Lemma unequal_sizes_equal_accuracies :
  (2 : Z) <> 4 /\
  micro_accuracy [1; 2] [2; 4] = Ok (3 # 6) /\
  macro_accuracy [1; 2] [2; 4] = Ok (8 # 16) /\
  (3 # 6 == 1 # 2)%Q /\
  (8 # 16 == 1 # 2)%Q.
Proof.
  split; [discriminate|].
  split; [reflexivity|]. split; [reflexivity|]. split; reflexivity.
Qed.

(** C4, amended: for every non-empty list of per-file results with
    positive sizes, the micro accuracy is the sum of the correct counts
    over the sum of the sizes, and the macro accuracy is the arithmetic
    mean of the per-file ratios.  For the results (8, 10) and (1, 2) they
    are 3/4 and 13/20, which differ; with unequal sizes they may also
    coincide, as for (1, 2) and (2, 4). *)
Theorem accuracies_micro_and_macro :
  (forall results : list (Z * Z),
     results <> [] ->
     Forall (fun r => 0 < snd r) results ->
     exists micro macro,
       micro_accuracy (List.map fst results) (List.map snd results)
         = Ok micro /\
       macro_accuracy (List.map fst results) (List.map snd results)
         = Ok macro /\
       (micro == inject_Z (Zsum (List.map fst results))
                 / inject_Z (Zsum (List.map snd results)))%Q /\
       (macro == Qsum (List.map ratio results)
                 / inject_Z (Z.of_nat (length results)))%Q) /\
  (exists micro macro,
     micro_accuracy [8; 1] [10; 2] = Ok micro /\
     macro_accuracy [8; 1] [10; 2] = Ok macro /\
     (micro == 3 # 4)%Q /\ (macro == 13 # 20)%Q /\ ~ (micro == macro)%Q) /\
  (exists micro macro,
     micro_accuracy [1; 2] [2; 4] = Ok micro /\
     macro_accuracy [1; 2] [2; 4] = Ok macro /\
     (micro == macro)%Q).
Proof.
  split; [|split].
  - intros results Hne Hpos.
    assert (Hsize : 0 < Zsum (List.map snd results)).
    { apply Zsum_pos.
      - destruct results; [congruence | discriminate].
      - apply Forall_map. exact Hpos. }
    eexists. eexists. split; [|split; [|split]].
    + unfold micro_accuracy, truediv. rewrite !sum_Zsum.
      replace (Zsum (List.map snd results) =? 0) with false by lia.
      reflexivity.
    + unfold macro_accuracy. rewrite combine_fst_snd, (ratios_ok _ Hpos).
      cbn [bind]. unfold mean.
      destruct results as [|r results]; [congruence|]. reflexivity.
    + reflexivity.
    + rewrite fold_left_Qplus, Qplus_0_l.
      unfold len. rewrite length_map. reflexivity.
  - exists (9 # 12), (26 # 40).
    repeat split; try reflexivity. discriminate.
  - exists (3 # 6), (8 # 16). repeat split; reflexivity.
Qed.

Lemma accuracies_micro_and_macro_witness :
  exists micro macro,
    micro_accuracy [8; 1] [10; 2] = Ok micro /\
    macro_accuracy [8; 1] [10; 2] = Ok macro /\
    (micro == inject_Z (8 + 1) / inject_Z (10 + 2))%Q /\
    (macro == ((8 # 10) + (1 # 2)) / inject_Z 2)%Q.
Proof.
  destruct accuracies_micro_and_macro as [H _].
  destruct (H [(8, 10); (1, 2)]) as (micro & macro & Hmi & Hma & Emi & Ema).
  - discriminate.
  - repeat constructor.
  - exists micro, macro. split; [exact Hmi|]. split; [exact Hma|].
    split; [rewrite Emi | rewrite Ema]; reflexivity.
Defined.

(** * Further properties *)

(** ** UTF-8: decoding what was encoded *)

Lemma below_cases (P : N -> bool) (n : nat) :
  forallb P (List.map N.of_nat (seq 0 n)) = true ->
  forall y : N, (y < N.of_nat n)%N -> P y = true.
Proof.
  intros H y Hy. rewrite forallb_forall in H. apply H.
  apply in_map_iff. exists (N.to_nat y). split; [apply N2Nat.id|].
  apply in_seq. lia.
Qed.

Lemma to_N_byte_of_N (n : N) : (n < 256)%N -> Byte.to_N (byte_of_N n) = n.
Proof.
  intros H. unfold byte_of_N.
  destruct (Byte.of_N n) as [b|] eqn:E.
  - now apply Byte.to_of_N.
  - apply Byte.of_N_None_iff in E. lia.
Qed.

Lemma lor_lead (y : N) :
  (y < 64)%N ->
  N.lor 128 y = (128 + y)%N /\
  (y < 32 -> N.lor 192 y = 192 + y)%N /\
  (y < 16 -> N.lor 224 y = 224 + y)%N /\
  (y < 8 -> N.lor 240 y = 240 + y)%N.
Proof.
  intros H.
  pose proof (below_cases
    (fun y => (N.lor 128 y =? 128 + y)%N
              && ((32 <=? y)%N || (N.lor 192 y =? 192 + y)%N)
              && ((16 <=? y)%N || (N.lor 224 y =? 224 + y)%N)
              && ((8 <=? y)%N || (N.lor 240 y =? 240 + y)%N))
    64 eq_refl y H) as E.
  rewrite !andb_true_iff, !orb_true_iff, !N.eqb_eq, !N.leb_le in E.
  destruct E as [[[E1 E2] E3] E4].
  repeat split; [exact E1 | | |]; intros Hy;
    [destruct E2 | destruct E3 | destruct E4]; (assumption || lia).
Qed.

Lemma shiftr_div (c k : N) : N.shiftr c k = (c / 2 ^ k)%N.
Proof. apply N.shiftr_div_pow2. Qed.

Lemma land_mod (c : N) :
  N.land c 63 = (c mod 64)%N /\ N.land c 31 = (c mod 32)%N /\
  N.land c 15 = (c mod 16)%N /\ N.land c 7 = (c mod 8)%N.
Proof.
  repeat split;
    [ apply (N.land_ones c 6) | apply (N.land_ones c 5)
    | apply (N.land_ones c 4) | apply (N.land_ones c 3) ].
Qed.

Ltac euclid := zify; Z.to_euclidean_division_equations; lia.

Ltac not_lead n0 lo hi :=
  replace (between lo n0 hi) with false
    by (symmetry; apply between_false; lia).

Section DecodeSteps.
Variables (b0 b1 b2 b3 : byte) (rest : bytes).
Local Abbreviation n0 := (Byte.to_N b0).
Local Abbreviation n1 := (Byte.to_N b1).
Local Abbreviation n2 := (Byte.to_N b2).
Local Abbreviation n3 := (Byte.to_N b3).

Lemma decode_one :
  (n0 < 128)%N ->
  decode (b0 :: rest) = do s <- decode rest in Ok (n0 :: s).
Proof.
  intros H. cbn [decode].
  now replace (Byte.to_N b0 <? 128)%N with true
    by (symmetry; apply N.ltb_lt; lia).
Qed.

Lemma decode_two :
  (194 <= n0 <= 223)%N -> (128 <= n1 <= 191)%N ->
  decode (b0 :: b1 :: rest)
  = do s <- decode rest in
    Ok ((N.shiftl (N.land n0 31) 6 + N.land n1 63)%N :: s).
Proof.
  intros H0 H1. cbn [decode].
  replace (Byte.to_N b0 <? 128)%N with false
    by (symmetry; apply N.ltb_ge; lia).
  replace (between 194 (Byte.to_N b0) 223) with true
    by (symmetry; apply between_spec; lia).
  unfold cont_in.
  now replace (between 128 (Byte.to_N b1) 191) with true
    by (symmetry; apply between_spec; lia).
Qed.

Lemma decode_three :
  (224 <= n0 <= 239)%N ->
  ((if (n0 =? 224)%N then 160 else 128) <= n1
   <= (if (n0 =? 237)%N then 159 else 191))%N ->
  (128 <= n2 <= 191)%N ->
  decode (b0 :: b1 :: b2 :: rest)
  = do s <- decode rest in
    Ok ((N.shiftl (N.land n0 15) 12 + N.shiftl (N.land n1 63) 6
         + N.land n2 63)%N :: s).
Proof.
  intros H0 H1 H2. cbn [decode].
  replace (Byte.to_N b0 <? 128)%N with false
    by (symmetry; apply N.ltb_ge; lia).
  not_lead (Byte.to_N b0) 194%N 223%N.
  replace (between 224 (Byte.to_N b0) 239) with true
    by (symmetry; apply between_spec; lia).
  unfold cont_in.
  replace (between _ (Byte.to_N b1) _) with true
    by (symmetry; apply between_spec; exact H1).
  now replace (between 128 (Byte.to_N b2) 191) with true
    by (symmetry; apply between_spec; lia).
Qed.

Lemma decode_four :
  (240 <= n0 <= 244)%N ->
  ((if (n0 =? 240)%N then 144 else 128) <= n1
   <= (if (n0 =? 244)%N then 143 else 191))%N ->
  (128 <= n2 <= 191)%N -> (128 <= n3 <= 191)%N ->
  decode (b0 :: b1 :: b2 :: b3 :: rest)
  = do s <- decode rest in
    Ok ((N.shiftl (N.land n0 7) 18 + N.shiftl (N.land n1 63) 12
         + N.shiftl (N.land n2 63) 6 + N.land n3 63)%N :: s).
Proof.
  intros H0 H1 H2 H3. cbn [decode].
  replace (Byte.to_N b0 <? 128)%N with false
    by (symmetry; apply N.ltb_ge; lia).
  not_lead (Byte.to_N b0) 194%N 223%N.
  not_lead (Byte.to_N b0) 224%N 239%N.
  replace (between 240 (Byte.to_N b0) 244) with true
    by (symmetry; apply between_spec; lia).
  unfold cont_in.
  replace (between _ (Byte.to_N b1) _) with true
    by (symmetry; apply between_spec; exact H1).
  replace (between 128 (Byte.to_N b2) 191) with true
    by (symmetry; apply between_spec; lia).
  now replace (between 128 (Byte.to_N b3) 191) with true
    by (symmetry; apply between_spec; lia).
Qed.
End DecodeSteps.

Lemma decode_encode_char (c : N) (bs rest : bytes) :
  encode_char c = Some bs ->
  decode (bs ++ rest) = do s <- decode rest in Ok (c :: s).
Proof.
  unfold encode_char. intros H.
  destruct (c <? 128)%N eqn:E1; [|apply N.ltb_ge in E1].
  { apply N.ltb_lt in E1. injection H as <-. cbn [app].
    rewrite decode_one; rewrite to_N_byte_of_N by lia; [reflexivity | lia]. }
  rewrite !shiftr_div, !(proj1 (land_mod _)) in H.
  change (2 ^ 0)%N with 1%N in H. change (2 ^ 6)%N with 64%N in H.
  change (2 ^ 12)%N with 4096%N in H. change (2 ^ 18)%N with 262144%N in H.
  rewrite N.div_1_r in H.
  destruct (c <? 2048)%N eqn:E2; [|apply N.ltb_ge in E2].
  { apply N.ltb_lt in E2. injection H as <-. cbn [app].
    assert (Ha : (2 <= c / 64 < 32)%N) by euclid.
    assert (Hb : (c mod 64 < 64)%N) by euclid.
    destruct (lor_lead (c / 64)) as (_ & L & _); [lia|]. rewrite L by lia.
    destruct (lor_lead (c mod 64)) as (L' & _); [lia|]. rewrite L'.
    rewrite decode_two; rewrite !to_N_byte_of_N by lia; try euclid.
    rewrite (proj1 (land_mod _)), (proj1 (proj2 (land_mod _))).
    rewrite N.shiftl_mul_pow2. change (2 ^ 6)%N with 64%N.
    replace ((192 + c / 64) mod 32 * 64 + (128 + c mod 64) mod 64)%N with c
      by euclid.
    reflexivity. }
  destruct (c <? 65536)%N eqn:E3; [|apply N.ltb_ge in E3].
  { apply N.ltb_lt in E3.
    destruct ((55296 <=? c)%N && (c <=? 57343)%N) eqn:Es; [discriminate|].
    assert (Hs : (c < 55296 \/ 57343 < c)%N).
    { apply andb_false_iff in Es. destruct Es as [Es|Es];
        [left; apply N.leb_gt in Es | right; apply N.leb_gt in Es]; lia. }
    injection H as <-. cbn [app].
    assert (Ha : (c / 4096 < 16)%N) by euclid.
    assert (Hb : ((c / 64) mod 64 < 64)%N) by euclid.
    assert (Hd : (c mod 64 < 64)%N) by euclid.
    destruct (lor_lead (c / 4096)) as (_ & _ & L & _); [lia|]. rewrite L by lia.
    destruct (lor_lead ((c / 64) mod 64)) as (L' & _); [lia|]. rewrite L'.
    destruct (lor_lead (c mod 64)) as (L'' & _); [lia|]. rewrite L''.
    rewrite decode_three; rewrite !to_N_byte_of_N by lia; try euclid.
    - rewrite !(proj1 (land_mod _)), (proj1 (proj2 (proj2 (land_mod _)))).
      rewrite !N.shiftl_mul_pow2.
      change (2 ^ 6)%N with 64%N. change (2 ^ 12)%N with 4096%N.
      replace ((224 + c / 4096) mod 16 * 4096
               + (128 + (c / 64) mod 64) mod 64 * 64
               + (128 + c mod 64) mod 64)%N with c by euclid.
      reflexivity.
    - destruct (224 + c / 4096 =? 224)%N eqn:Q1;
        destruct (224 + c / 4096 =? 237)%N eqn:Q2;
        try apply N.eqb_eq in Q1; try apply N.eqb_eq in Q2;
        euclid. }
  destruct (c <? 1114112)%N eqn:E4; [|discriminate].
  apply N.ltb_lt in E4. injection H as <-. cbn [app].
  assert (Ha : (c / 262144 < 5)%N) by euclid.
  assert (Hb : ((c / 4096) mod 64 < 64)%N) by euclid.
  assert (Hd : ((c / 64) mod 64 < 64)%N) by euclid.
  assert (He : (c mod 64 < 64)%N) by euclid.
  destruct (lor_lead (c / 262144)) as (_ & _ & _ & L); [lia|]. rewrite L by lia.
  destruct (lor_lead ((c / 4096) mod 64)) as (L1 & _); [lia|]. rewrite L1.
  destruct (lor_lead ((c / 64) mod 64)) as (L2 & _); [lia|]. rewrite L2.
  destruct (lor_lead (c mod 64)) as (L3 & _); [lia|]. rewrite L3.
  rewrite decode_four; rewrite !to_N_byte_of_N by lia; try euclid.
  - rewrite !(proj1 (land_mod _)), (proj2 (proj2 (proj2 (land_mod _)))).
    rewrite !N.shiftl_mul_pow2.
    change (2 ^ 6)%N with 64%N. change (2 ^ 12)%N with 4096%N.
    change (2 ^ 18)%N with 262144%N.
    replace ((240 + c / 262144) mod 8 * 262144
             + (128 + (c / 4096) mod 64) mod 64 * 4096
             + (128 + (c / 64) mod 64) mod 64 * 64
             + (128 + c mod 64) mod 64)%N with c by euclid.
    reflexivity.
  - destruct (240 + c / 262144 =? 240)%N eqn:Q1;
      destruct (240 + c / 262144 =? 244)%N eqn:Q2;
      try apply N.eqb_eq in Q1; try apply N.eqb_eq in Q2;
      euclid.
Qed.

Lemma bind_ok_id {A} (m : result A) : (do x <- m in Ok x) = m.
Proof. destruct m; reflexivity. Qed.

Lemma decode_encode_app (s : str) (b rest : bytes) :
  encode s = Ok b ->
  decode (b ++ rest) = do y <- decode rest in Ok (s ++ y).
Proof.
  revert b. induction s as [|c s IH]; intros b; cbn [encode].
  - intros [= <-]. cbn [app]. symmetry. apply bind_ok_id.
  - destruct (encode_char c) as [bs|] eqn:Ec; [|discriminate].
    destruct (encode s) as [bt|] eqn:Es; [|discriminate].
    cbn [bind]. intros [= <-]. rewrite <- app_assoc.
    rewrite (decode_encode_char c bs _ Ec), (IH bt eq_refl).
    destruct (decode rest); reflexivity.
Qed.

Lemma encode_app (s t : str) (bs bt : bytes) :
  encode s = Ok bs -> encode t = Ok bt -> encode (s ++ t) = Ok (bs ++ bt).
Proof.
  revert bs. induction s as [|c s IH]; intros bs; cbn [encode app].
  - intros [= <-]. now intros ->.
  - destruct (encode_char c) as [bc|]; [|discriminate].
    destruct (encode s) as [bs'|]; [|discriminate].
    cbn [bind]. intros [= <-] Ht. rewrite (IH bs' eq_refl Ht). cbn [bind].
    now rewrite app_assoc.
Qed.

Lemma encode_char_scalar (c : N) :
  encode_char c = None <->
  ((55296 <= c <= 57343)%N \/ (1114112 <= c)%N).
Proof.
  unfold encode_char.
  destruct (c <? 128)%N eqn:E1;
    [apply N.ltb_lt in E1; split; [discriminate | lia] | apply N.ltb_ge in E1].
  destruct (c <? 2048)%N eqn:E2;
    [apply N.ltb_lt in E2; split; [discriminate | lia] | apply N.ltb_ge in E2].
  destruct (c <? 65536)%N eqn:E3; [apply N.ltb_lt in E3 | apply N.ltb_ge in E3].
  - destruct ((55296 <=? c)%N && (c <=? 57343)%N) eqn:Es.
    + apply andb_true_iff in Es. rewrite !N.leb_le in Es. tauto.
    + split; [discriminate|]. intros [H|H]; [|lia].
      apply andb_false_iff in Es. rewrite !N.leb_gt in Es. lia.
  - destruct (c <? 1114112)%N eqn:E4;
      [apply N.ltb_lt in E4; split; [discriminate | lia]
      | apply N.ltb_ge in E4; split; [now right | reflexivity]].
Qed.

Lemma encode_error (s : str) (e : exn) :
  encode s = Err e ->
  e = UnicodeEncodeError /\
  Exists (fun c => (55296 <= c <= 57343)%N \/ (1114112 <= c)%N) s.
Proof.
  induction s as [|c s IH]; cbn [encode]; [discriminate|].
  destruct (encode_char c) as [bs|] eqn:Ec.
  - destruct (encode s) as [bt|]; [discriminate|].
    cbn [bind]. intros [= <-]. destruct (IH eq_refl) as [-> H].
    split; [reflexivity | now apply Exists_cons_tl].
  - intros [= <-]. split; [reflexivity|].
    apply Exists_cons_hd. now apply encode_char_scalar.
Qed.

Lemma encode_ok (s : str) (b : bytes) :
  encode s = Ok b ->
  Forall (fun c => ~ ((55296 <= c <= 57343)%N \/ (1114112 <= c)%N)) s.
Proof.
  revert b. induction s as [|c s IH]; intros b; cbn [encode]; [constructor|].
  destruct (encode_char c) as [bs|] eqn:Ec; [|discriminate].
  destruct (encode s) as [bt|]; [|discriminate].
  intros _. constructor; [|now apply (IH bt)].
  intros H. apply encode_char_scalar in H. congruence.
Qed.

Lemma decode_error (b : bytes) (e : exn) :
  decode b = Err e -> e = UnicodeDecodeError.
Proof.
  remember (length b) as n eqn:Hn. revert b Hn.
  induction n as [n IH] using lt_wf_ind. intros b Hn.
  assert (Hrec : forall r v, (length r < n)%nat ->
            (do s <- decode r in Ok (v :: s)) = Err e ->
            e = UnicodeDecodeError).
  { intros r v Hr H. destruct (decode r) eqn:D; [discriminate|].
    injection H as <-. eapply IH; [exact Hr | reflexivity | exact D]. }
  destruct b as [|b0 r0]; [discriminate|]. cbn [decode]. cbn [length] in Hn.
  destruct (Byte.to_N b0 <? 128)%N; [apply Hrec; lia|].
  destruct (between 194 (Byte.to_N b0) 223).
  { destruct r0 as [|b1 r1]; [congruence|]. cbn [length] in Hn.
    destruct (cont_in 128 191 b1); [apply Hrec; lia | congruence]. }
  destruct (between 224 (Byte.to_N b0) 239).
  { destruct r0 as [|b1 [|b2 r2]]; try congruence. cbn [length] in Hn.
    destruct (cont_in _ _ b1); [|congruence].
    destruct (cont_in 128 191 b2); [apply Hrec; lia | congruence]. }
  destruct (between 240 (Byte.to_N b0) 244); [|congruence].
  destruct r0 as [|b1 [|b2 [|b3 r3]]]; try congruence. cbn [length] in Hn.
  destruct (cont_in _ _ b1); [|congruence].
  destruct (cont_in 128 191 b2); [|congruence].
  destruct (cont_in 128 191 b3); [apply Hrec; lia | congruence].
Qed.

Lemma decode_encode (s : str) (b : bytes) :
  encode s = Ok b -> decode b = Ok s.
Proof.
  intros H. pose proof (decode_encode_app s b [] H) as D.
  rewrite app_nil_r in D. cbn [decode bind] in D.
  now rewrite app_nil_r in D.
Qed.

(** X1: what [encode] returns for a text, [decode] turns back into that
    text: lines 39 and 43 alone, without the carets between them, give the
    sentence back. *)
Theorem encode_then_decode (s : str) (b : bytes) :
  encode s = Ok b -> decode b = Ok s.
Proof. apply decode_encode. Qed.

Lemma encode_then_decode_witness :
  decode [xc3; xa9; x20; xe2; x82; xac; xf0; x9f; x98; x80]
    = Ok [233%N; 32%N; 8364%N; 128512%N].
Proof.
  apply (encode_then_decode [233%N; 32%N; 8364%N; 128512%N]). reflexivity.
Defined.

Lemma firstn_length_app {A} (l l' : list A) : firstn (length l) (l ++ l') = l.
Proof.
  rewrite firstn_app, Nat.sub_diag, firstn_all. cbn. apply app_nil_r.
Qed.

Lemma skipn_length_app {A} (l l' : list A) : skipn (length l) (l ++ l') = l'.
Proof.
  rewrite skipn_app, Nat.sub_diag, skipn_all. reflexivity.
Qed.

(** X2: when the two offsets are the byte lengths of a prefix and of that
    prefix with the span, the marked sentence is the sentence with a caret
    before and a caret after the characters of the span, whatever the
    width of the characters; in particular the decoding does not raise. *)
Theorem marked_sentence_at_character_boundaries
    (before span after : str) (bb bs ba : bytes) :
  encode before = Ok bb -> encode span = Ok bs -> encode after = Ok ba ->
  marked_sentence (before ++ span ++ after) (len bb) (len bb + len bs)
    = Ok (before ++ [caret] ++ span ++ [caret] ++ after).
Proof.
  intros Hb Hs Ha. unfold marked_sentence.
  rewrite (encode_app _ _ _ _ Hb (encode_app _ _ _ _ Hs Ha)). cbn [bind].
  unfold marked_bytes, len.
  rewrite slice_prefix, slice_suffix, slice_middle
    by (unfold len; rewrite ?length_app; lia).
  rewrite !Nat2Z.id.
  replace (Z.to_nat (Z.of_nat (length bb) + Z.of_nat (length bs)))
    with (length bb + length bs)%nat by lia.
  rewrite firstn_length_app, skipn_length_app.
  replace (length bb + length bs - length bb)%nat with (length bs) by lia.
  rewrite firstn_length_app.
  replace (skipn (length bb + length bs) (bb ++ bs ++ ba)) with ba.
  2:{ rewrite app_assoc, <- length_app. symmetry. apply skipn_length_app. }
  assert (Hc : encode [caret] = Ok [caret_b]) by reflexivity.
  rewrite (decode_encode_app _ _ _ Hb).
  rewrite <- app_assoc, (decode_encode_app _ _ _ Hc).
  rewrite <- app_assoc, (decode_encode_app _ _ _ Hs).
  rewrite (decode_encode_app _ _ _ Hc).
  rewrite (decode_encode _ _ Ha). reflexivity.
Qed.

Lemma marked_sentence_at_character_boundaries_witness :
  marked_sentence [233%N; 32%N; 111%N; 107%N; 33%N] 3 5
    = Ok [233%N; 32%N; 94%N; 111%N; 107%N; 94%N; 33%N].
Proof.
  exact (marked_sentence_at_character_boundaries
           [233%N; 32%N] [111%N; 107%N] [33%N]
           [xc3; xa9; x20] [x6f; x6b] [x21] eq_refl eq_refl eq_refl).
Defined.

(** ** UTF-8: encoding what was decoded *)

Lemma byte_of_N_to_N (b : byte) : byte_of_N (Byte.to_N b) = b.
Proof. unfold byte_of_N. now rewrite Byte.of_to_N. Qed.

Lemma cont_in_some (lo hi : N) (b : byte) (c : N) :
  cont_in lo hi b = Some c ->
  (lo <= Byte.to_N b <= hi)%N /\ c = N.land (Byte.to_N b) 63.
Proof.
  unfold cont_in. destruct (between lo (Byte.to_N b) hi) eqn:E; [|discriminate].
  intros [= <-]. split; [now apply between_spec | reflexivity].
Qed.

(** The digits of a number written in base 64. *)
Lemma digits64_two (a b : N) :
  (b < 64)%N ->
  ((a * 64 + b) / 64 = a /\ (a * 64 + b) mod 64 = b)%N.
Proof.
  intros Hb. split; symmetry.
  - apply (N.div_unique _ 64 a b); lia.
  - apply (N.mod_unique _ 64 a b); lia.
Qed.

Lemma digits64_three (a b d : N) :
  (b < 64)%N -> (d < 64)%N ->
  let c := (a * 4096 + b * 64 + d)%N in
  (c / 4096 = a /\ (c / 64) mod 64 = b /\ c mod 64 = d)%N.
Proof.
  intros Hb Hd c.
  destruct (digits64_two (a * 64 + b) d Hd) as [E1 E2].
  destruct (digits64_two a b Hb) as [E3 E4].
  replace c with ((a * 64 + b) * 64 + d)%N by (subst c; lia).
  rewrite E1, E2, E4. repeat split.
  symmetry. apply (N.div_unique _ 4096 a (b * 64 + d)); lia.
Qed.

Lemma digits64_four (a b d e : N) :
  (b < 64)%N -> (d < 64)%N -> (e < 64)%N ->
  let c := (a * 262144 + b * 4096 + d * 64 + e)%N in
  (c / 262144 = a /\ (c / 4096) mod 64 = b /\
   (c / 64) mod 64 = d /\ c mod 64 = e)%N.
Proof.
  intros Hb Hd He c.
  destruct (digits64_two (a * 4096 + b * 64 + d) e He) as [E1 E2].
  destruct (digits64_three a b d Hb Hd) as (E3 & E4 & E5).
  replace c with ((a * 4096 + b * 64 + d) * 64 + e)%N by (subst c; lia).
  rewrite E1, E2, E5. repeat split.
  - symmetry.
    apply (N.div_unique _ 262144 a (b * 4096 + d * 64 + e)); lia.
  - replace (((a * 4096 + b * 64 + d) * 64 + e) / 4096)%N
      with (a * 64 + b)%N.
    + apply digits64_two. exact Hb.
    + apply (N.div_unique _ 4096 _ (d * 64 + e)); lia.
Qed.

Lemma lead_mod (n : N) :
  ((128 <= n <= 191 -> n mod 64 = n - 128) /\
   (192 <= n <= 223 -> n mod 32 = n - 192) /\
   (224 <= n <= 239 -> n mod 16 = n - 224) /\
   (240 <= n <= 247 -> n mod 8 = n - 240))%N.
Proof.
  repeat split; intros H; symmetry.
  - apply (N.mod_unique _ 64 2); lia.
  - apply (N.mod_unique _ 32 6); lia.
  - apply (N.mod_unique _ 16 14); lia.
  - apply (N.mod_unique _ 8 30); lia.
Qed.

Lemma encode_char_two (n0 n1 : N) :
  (194 <= n0 <= 223)%N -> (128 <= n1 <= 191)%N ->
  encode_char (N.shiftl (N.land n0 31) 6 + N.land n1 63)
  = Some [byte_of_N n0; byte_of_N n1].
Proof.
  intros H0 H1.
  rewrite (proj1 (land_mod _)), (proj1 (proj2 (land_mod _))).
  rewrite N.shiftl_mul_pow2. change (2 ^ 6)%N with 64%N.
  rewrite (proj1 (lead_mod n1)), (proj1 (proj2 (lead_mod n0))) by lia.
  destruct (digits64_two (n0 - 192) (n1 - 128)) as [Ha Hb]; [lia|].
  set (c := ((n0 - 192) * 64 + (n1 - 128))%N) in *.
  assert (Hc : (128 <= c < 2048)%N) by (subst c; lia).
  unfold encode_char.
  replace (c <? 128)%N with false by (symmetry; apply N.ltb_ge; lia).
  replace (c <? 2048)%N with true by (symmetry; apply N.ltb_lt; lia).
  rewrite !shiftr_div, (proj1 (land_mod _)).
  change (2 ^ 6)%N with 64%N. change (2 ^ 0)%N with 1%N.
  rewrite N.div_1_r, Ha, Hb.
  destruct (lor_lead (n0 - 192)) as (_ & L & _); [lia|]. rewrite L by lia.
  destruct (lor_lead (n1 - 128)) as (L' & _); [lia|]. rewrite L'.
  repeat f_equal; lia.
Qed.

Lemma encode_char_three (n0 n1 n2 : N) :
  (224 <= n0 <= 239)%N ->
  ((if (n0 =? 224)%N then 160 else 128) <= n1
   <= (if (n0 =? 237)%N then 159 else 191))%N ->
  (128 <= n2 <= 191)%N ->
  encode_char (N.shiftl (N.land n0 15) 12 + N.shiftl (N.land n1 63) 6
               + N.land n2 63)
  = Some [byte_of_N n0; byte_of_N n1; byte_of_N n2].
Proof.
  intros H0 H1 H2.
  assert (H1' : (128 <= n1 <= 191)%N /\ (n0 = 224 -> 160 <= n1)%N
                /\ (n0 = 237 -> n1 <= 159)%N).
  { revert H1.
    destruct (N.eqb_spec n0 224), (N.eqb_spec n0 237); intros H1; lia. }
  clear H1. destruct H1' as (H1 & Hlo & Hhi).
  rewrite !(proj1 (land_mod _)), (proj1 (proj2 (proj2 (land_mod _)))).
  rewrite !N.shiftl_mul_pow2.
  change (2 ^ 6)%N with 64%N. change (2 ^ 12)%N with 4096%N.
  rewrite (proj1 (lead_mod n1)), (proj1 (lead_mod n2)),
    (proj1 (proj2 (proj2 (lead_mod n0)))) by lia.
  destruct (digits64_three (n0 - 224) (n1 - 128) (n2 - 128))
    as (Ha & Hb & Hd); [lia | lia |].
  set (c := ((n0 - 224) * 4096 + (n1 - 128) * 64 + (n2 - 128))%N) in *.
  assert (Hc : (2048 <= c < 65536)%N) by (subst c; lia).
  assert (Hs : (c < 55296 \/ 57343 < c)%N) by (subst c; lia).
  unfold encode_char.
  replace (c <? 128)%N with false by (symmetry; apply N.ltb_ge; lia).
  replace (c <? 2048)%N with false by (symmetry; apply N.ltb_ge; lia).
  replace (c <? 65536)%N with true by (symmetry; apply N.ltb_lt; lia).
  replace ((55296 <=? c)%N && (c <=? 57343)%N) with false.
  2:{ symmetry. apply andb_false_iff. rewrite !N.leb_gt. lia. }
  rewrite !shiftr_div, !(proj1 (land_mod _)).
  change (2 ^ 6)%N with 64%N. change (2 ^ 0)%N with 1%N.
  change (2 ^ 12)%N with 4096%N.
  rewrite N.div_1_r, Ha, Hb, Hd.
  destruct (lor_lead (n0 - 224)) as (_ & _ & L & _); [lia|]. rewrite L by lia.
  destruct (lor_lead (n1 - 128)) as (L1 & _); [lia|]. rewrite L1.
  destruct (lor_lead (n2 - 128)) as (L2 & _); [lia|]. rewrite L2.
  repeat f_equal; lia.
Qed.

Lemma encode_char_four (n0 n1 n2 n3 : N) :
  (240 <= n0 <= 244)%N ->
  ((if (n0 =? 240)%N then 144 else 128) <= n1
   <= (if (n0 =? 244)%N then 143 else 191))%N ->
  (128 <= n2 <= 191)%N -> (128 <= n3 <= 191)%N ->
  encode_char (N.shiftl (N.land n0 7) 18 + N.shiftl (N.land n1 63) 12
               + N.shiftl (N.land n2 63) 6 + N.land n3 63)
  = Some [byte_of_N n0; byte_of_N n1; byte_of_N n2; byte_of_N n3].
Proof.
  intros H0 H1 H2 H3.
  assert (H1' : (128 <= n1 <= 191)%N /\ (n0 = 240 -> 144 <= n1)%N
                /\ (n0 = 244 -> n1 <= 143)%N).
  { revert H1.
    destruct (N.eqb_spec n0 240), (N.eqb_spec n0 244); intros H1; lia. }
  clear H1. destruct H1' as (H1 & Hlo & Hhi).
  rewrite !(proj1 (land_mod _)), (proj2 (proj2 (proj2 (land_mod _)))).
  rewrite !N.shiftl_mul_pow2.
  change (2 ^ 6)%N with 64%N. change (2 ^ 12)%N with 4096%N.
  change (2 ^ 18)%N with 262144%N.
  rewrite (proj1 (lead_mod n1)), (proj1 (lead_mod n2)),
    (proj1 (lead_mod n3)), (proj2 (proj2 (proj2 (lead_mod n0)))) by lia.
  destruct (digits64_four (n0 - 240) (n1 - 128) (n2 - 128) (n3 - 128))
    as (Ha & Hb & Hd & He); [lia | lia | lia |].
  set (c := ((n0 - 240) * 262144 + (n1 - 128) * 4096 + (n2 - 128) * 64
             + (n3 - 128))%N) in *.
  assert (Hc : (65536 <= c < 1114112)%N) by (subst c; lia).
  unfold encode_char.
  replace (c <? 128)%N with false by (symmetry; apply N.ltb_ge; lia).
  replace (c <? 2048)%N with false by (symmetry; apply N.ltb_ge; lia).
  replace (c <? 65536)%N with false by (symmetry; apply N.ltb_ge; lia).
  replace (c <? 1114112)%N with true by (symmetry; apply N.ltb_lt; lia).
  rewrite !shiftr_div, !(proj1 (land_mod _)).
  change (2 ^ 6)%N with 64%N. change (2 ^ 0)%N with 1%N.
  change (2 ^ 12)%N with 4096%N. change (2 ^ 18)%N with 262144%N.
  rewrite N.div_1_r, Ha, Hb, Hd, He.
  destruct (lor_lead (n0 - 240)) as (_ & _ & _ & L); [lia|]. rewrite L by lia.
  destruct (lor_lead (n1 - 128)) as (L1 & _); [lia|]. rewrite L1.
  destruct (lor_lead (n2 - 128)) as (L2 & _); [lia|]. rewrite L2.
  destruct (lor_lead (n3 - 128)) as (L3 & _); [lia|]. rewrite L3.
  repeat f_equal; lia.
Qed.

Lemma encode_cons (c : N) (s : str) (bs bt : bytes) :
  encode_char c = Some bs -> encode s = Ok bt ->
  encode (c :: s) = Ok (bs ++ bt).
Proof. intros Hc Hs. cbn [encode]. now rewrite Hc, Hs. Qed.

Lemma bind_cons_ok (m : result str) (v : N) (s : str) :
  (do x <- m in Ok (v :: x)) = Ok s ->
  exists s', m = Ok s' /\ s = v :: s'.
Proof. destruct m as [s'|e]; [|discriminate]. intros [= <-]. eauto. Qed.

Lemma encode_decode (b : bytes) (s : str) :
  decode b = Ok s -> encode s = Ok b.
Proof.
  remember (length b) as n eqn:Hn. revert b s Hn.
  induction n as [n IH] using lt_wf_ind. intros b s Hn.
  destruct b as [|b0 r0]; [intros [= <-]; reflexivity|].
  cbn [length] in Hn. cbn [decode].
  destruct (Byte.to_N b0 <? 128)%N eqn:E1.
  { apply N.ltb_lt in E1. intros H.
    destruct (bind_cons_ok _ _ _ H) as (s' & D & ->).
    apply (encode_cons _ _ [b0]); [|eapply IH; [|reflexivity|exact D]; lia].
    unfold encode_char.
    replace (Byte.to_N b0 <? 128)%N with true
      by (symmetry; apply N.ltb_lt; lia).
    now rewrite byte_of_N_to_N. }
  destruct (between 194 (Byte.to_N b0) 223) eqn:E2.
  { apply between_spec in E2.
    destruct r0 as [|b1 r1]; [discriminate|]. cbn [length] in Hn.
    destruct (cont_in 128 191 b1) as [c1|] eqn:C1; [|discriminate].
    destruct (cont_in_some _ _ _ _ C1) as [R1 ->]. intros H.
    destruct (bind_cons_ok _ _ _ H) as (s' & D & ->).
    apply (encode_cons _ _ [b0; b1]);
      [|eapply IH; [|reflexivity|exact D]; lia].
    rewrite (encode_char_two _ _ E2 R1). now rewrite !byte_of_N_to_N. }
  destruct (between 224 (Byte.to_N b0) 239) eqn:E3.
  { apply between_spec in E3.
    destruct r0 as [|b1 [|b2 r2]]; try discriminate. cbn [length] in Hn.
    destruct (cont_in _ _ b1) as [c1|] eqn:C1; [|discriminate].
    destruct (cont_in 128 191 b2) as [c2|] eqn:C2; [|discriminate].
    destruct (cont_in_some _ _ _ _ C1) as [R1 ->].
    destruct (cont_in_some _ _ _ _ C2) as [R2 ->]. intros H.
    destruct (bind_cons_ok _ _ _ H) as (s' & D & ->).
    apply (encode_cons _ _ [b0; b1; b2]);
      [|eapply IH; [|reflexivity|exact D]; lia].
    rewrite (encode_char_three _ _ _ E3 R1 R2). now rewrite !byte_of_N_to_N. }
  destruct (between 240 (Byte.to_N b0) 244) eqn:E4; [|discriminate].
  apply between_spec in E4.
  destruct r0 as [|b1 [|b2 [|b3 r3]]]; try discriminate. cbn [length] in Hn.
  destruct (cont_in _ _ b1) as [c1|] eqn:C1; [|discriminate].
  destruct (cont_in 128 191 b2) as [c2|] eqn:C2; [|discriminate].
  destruct (cont_in 128 191 b3) as [c3|] eqn:C3; [|discriminate].
  destruct (cont_in_some _ _ _ _ C1) as [R1 ->].
  destruct (cont_in_some _ _ _ _ C2) as [R2 ->].
  destruct (cont_in_some _ _ _ _ C3) as [R3 ->]. intros H.
  destruct (bind_cons_ok _ _ _ H) as (s' & D & ->).
  apply (encode_cons _ _ [b0; b1; b2; b3]);
    [|eapply IH; [|reflexivity|exact D]; lia].
  rewrite (encode_char_four _ _ _ _ E4 R1 R2 R3).
  now rewrite !byte_of_N_to_N.
Qed.

Lemma count_byte_app (b b' : bytes) (x : byte) :
  count_byte (b ++ b') x = count_byte b x + count_byte b' x.
Proof. induction b as [|y b IH]; cbn; [reflexivity | rewrite IH; lia]. Qed.

Lemma not_caret_byte (y : byte) :
  (128 <= Byte.to_N y)%N -> Byte.eqb y caret_b = false.
Proof.
  intros H. destruct (Byte.eqb y caret_b) eqn:E; [|reflexivity].
  apply Byte.byte_dec_bl in E. subst y. vm_compute in H. now destruct H.
Qed.

Lemma caret_byte (y : byte) :
  Byte.eqb y caret_b = (Byte.to_N y =? caret)%N.
Proof.
  destruct (Byte.eqb y caret_b) eqn:E.
  - apply Byte.byte_dec_bl in E. now subst y.
  - symmetry. apply N.eqb_neq. intros H.
    assert (y = caret_b).
    { rewrite <- (byte_of_N_to_N y), H. reflexivity. }
    subst y. discriminate E.
Qed.

Lemma multibyte_not_caret (c : N) (b0 b1 : byte) (bs : bytes) :
  encode_char c = Some (b0 :: b1 :: bs) -> (c =? caret)%N = false.
Proof.
  intros H. apply N.eqb_neq. intros ->. discriminate H.
Qed.

Lemma count_decode (b : bytes) (s : str) :
  decode b = Ok s -> count s caret = count_byte b caret_b.
Proof.
  remember (length b) as n eqn:Hn. revert b s Hn.
  induction n as [n IH] using lt_wf_ind. intros b s Hn.
  destruct b as [|b0 r0]; [intros [= <-]; reflexivity|].
  cbn [length] in Hn. cbn [decode count_byte].
  destruct (Byte.to_N b0 <? 128)%N eqn:E1.
  { intros H. destruct (bind_cons_ok _ _ _ H) as (s' & D & ->).
    cbn [count]. rewrite caret_byte.
    rewrite (IH (length r0) ltac:(lia) r0 s' eq_refl D). reflexivity. }
  apply N.ltb_ge in E1. rewrite (not_caret_byte b0 E1).
  destruct (between 194 (Byte.to_N b0) 223) eqn:E2.
  { apply between_spec in E2.
    destruct r0 as [|b1 r1]; [discriminate|]. cbn [length] in Hn.
    destruct (cont_in 128 191 b1) as [c1|] eqn:C1; [|discriminate].
    destruct (cont_in_some _ _ _ _ C1) as [R1 ->]. intros H.
    destruct (bind_cons_ok _ _ _ H) as (s' & D & ->).
    cbn [count count_byte].
    rewrite (multibyte_not_caret _ _ _ _ (encode_char_two _ _ E2 R1)).
    rewrite (not_caret_byte b1) by lia.
    rewrite (IH (length r1) ltac:(lia) r1 s' eq_refl D). reflexivity. }
  destruct (between 224 (Byte.to_N b0) 239) eqn:E3.
  { apply between_spec in E3.
    destruct r0 as [|b1 [|b2 r2]]; try discriminate. cbn [length] in Hn.
    destruct (cont_in _ _ b1) as [c1|] eqn:C1; [|discriminate].
    destruct (cont_in 128 191 b2) as [c2|] eqn:C2; [|discriminate].
    destruct (cont_in_some _ _ _ _ C1) as [R1 ->].
    destruct (cont_in_some _ _ _ _ C2) as [R2 ->]. intros H.
    destruct (bind_cons_ok _ _ _ H) as (s' & D & ->).
    cbn [count count_byte].
    rewrite (multibyte_not_caret _ _ _ _ (encode_char_three _ _ _ E3 R1 R2)).
    assert (128 <= Byte.to_N b1)%N.
    { destruct (Byte.to_N b0 =? 224)%N; lia. }
    rewrite (not_caret_byte b1), (not_caret_byte b2) by lia.
    rewrite (IH (length r2) ltac:(lia) r2 s' eq_refl D). reflexivity. }
  destruct (between 240 (Byte.to_N b0) 244) eqn:E4; [|discriminate].
  apply between_spec in E4.
  destruct r0 as [|b1 [|b2 [|b3 r3]]]; try discriminate. cbn [length] in Hn.
  destruct (cont_in _ _ b1) as [c1|] eqn:C1; [|discriminate].
  destruct (cont_in 128 191 b2) as [c2|] eqn:C2; [|discriminate].
  destruct (cont_in 128 191 b3) as [c3|] eqn:C3; [|discriminate].
  destruct (cont_in_some _ _ _ _ C1) as [R1 ->].
  destruct (cont_in_some _ _ _ _ C2) as [R2 ->].
  destruct (cont_in_some _ _ _ _ C3) as [R3 ->]. intros H.
  destruct (bind_cons_ok _ _ _ H) as (s' & D & ->).
  cbn [count count_byte].
  rewrite (multibyte_not_caret _ _ _ _
             (encode_char_four _ _ _ _ E4 R1 R2 R3)).
  assert (128 <= Byte.to_N b1)%N.
  { destruct (Byte.to_N b0 =? 240)%N; lia. }
  rewrite (not_caret_byte b1), (not_caret_byte b2), (not_caret_byte b3)
    by lia.
  rewrite (IH (length r3) ltac:(lia) r3 s' eq_refl D). reflexivity.
Qed.

(** X3: whenever marking succeeds, for any offsets, the text handed to the
    tokenizer encodes to exactly the marked bytes: decoding neither drops
    nor changes a byte. *)
Theorem marked_sentence_encodes_to_marked_bytes
    (sentence marked : str) (start end_ : Z) :
  marked_sentence sentence start end_ = Ok marked ->
  exists sentence_b,
    encode sentence = Ok sentence_b /\
    encode marked = Ok (marked_bytes sentence_b start end_).
Proof.
  unfold marked_sentence.
  destruct (encode sentence) as [b|e]; [|discriminate]. cbn [bind].
  intros D. exists b. split; [reflexivity | now apply encode_decode].
Qed.

Lemma marked_sentence_encodes_to_marked_bytes_witness :
  exists sentence_b,
    encode [233%N; 32%N; 111%N; 107%N] = Ok sentence_b /\
    encode [233%N; 32%N; 94%N; 111%N; 107%N; 94%N]
    = Ok (marked_bytes sentence_b 3 5).
Proof.
  apply (marked_sentence_encodes_to_marked_bytes
           [233%N; 32%N; 111%N; 107%N]
           [233%N; 32%N; 94%N; 111%N; 107%N; 94%N] 3 5).
  reflexivity.
Defined.

Lemma marked_sentence_has_two_more_carets_aux
    (sentence marked : str) (sentence_b : bytes) (start end_ : Z) :
  encode sentence = Ok sentence_b ->
  0 <= start <= end_ -> end_ <= len sentence_b ->
  marked_sentence sentence start end_ = Ok marked ->
  count marked caret = count sentence caret + 2.
Proof.
  intros He Hs Hn. unfold marked_sentence. rewrite He. cbn [bind].
  intros D. rewrite (count_decode _ _ D).
  rewrite (count_decode _ _ (decode_encode _ _ He)).
  unfold marked_bytes.
  rewrite slice_prefix, slice_suffix, slice_middle by lia.
  rewrite !count_byte_app.
  rewrite <- (firstn_skipn (Z.to_nat start) sentence_b) at 4.
  rewrite <- (firstn_skipn (Z.to_nat end_ - Z.to_nat start)
                (skipn (Z.to_nat start) sentence_b)) at 2.
  rewrite skipn_skipn, !count_byte_app.
  replace (Z.to_nat end_ - Z.to_nat start + Z.to_nat start)%nat
    with (Z.to_nat end_) by lia.
  cbn [count_byte]. replace (Byte.eqb caret_b caret_b) with true
    by reflexivity.
  lia.
Qed.

(** X4: for offsets with [0 <= start <= end_ <= byte-length], the marked
    sentence holds exactly two carets more than the sentence. *)
Theorem marked_sentence_has_two_more_carets
    (sentence marked : str) (sentence_b : bytes) (start end_ : Z) :
  encode sentence = Ok sentence_b ->
  0 <= start <= end_ -> end_ <= len sentence_b ->
  marked_sentence sentence start end_ = Ok marked ->
  count marked caret = count sentence caret + 2.
Proof. apply marked_sentence_has_two_more_carets_aux. Qed.

Lemma marked_sentence_has_two_more_carets_witness :
  count (lit "a^b ^record^") caret = count (lit "a^b record") caret + 2.
Proof.
  apply (marked_sentence_has_two_more_carets
           (lit "a^b record") (lit "a^b ^record^")
           (List.map byte_of_N (lit "a^b record")) 4 10);
    [reflexivity | lia | vm_compute; discriminate | reflexivity].
Defined.

(** ** Offsets out of range *)

Lemma clip_range (n i : Z) : 0 <= n -> 0 <= clip n i <= n.
Proof. unfold clip. destruct (i <? 0) eqn:E; lia. Qed.

Lemma length_slice {A} (l : list A) (lo hi : Z) :
  len (slice l (Some lo) (Some hi))
  = Z.max 0 (clip (len l) hi - clip (len l) lo).
Proof.
  unfold slice.
  pose proof (clip_range (len l) lo ltac:(unfold len; lia)).
  pose proof (clip_range (len l) hi ltac:(unfold len; lia)).
  unfold len in *. rewrite length_firstn, length_skipn. lia.
Qed.

(** X5: no offset makes the marking fail, offsets are clipped as slice
    bounds are.  The marked bytes are two longer than the sentence's when
    the clipped start does not pass the clipped end, and otherwise longer
    still by the bytes between the two, which then appear twice. *)
Theorem marked_bytes_length (sentence_b : bytes) (start end_ : Z) :
  let n := len sentence_b in
  len (marked_bytes sentence_b start end_)
  = n + 2 + Z.max 0 (clip n start - clip n end_).
Proof.
  cbn zeta. unfold marked_bytes.
  pose proof (length_slice sentence_b start end_) as Hm.
  pose proof (clip_range (len sentence_b) start ltac:(unfold len; lia)).
  pose proof (clip_range (len sentence_b) end_ ltac:(unfold len; lia)).
  assert (Hl : len (slice sentence_b None (Some start))
               = clip (len sentence_b) start).
  { unfold slice, len in *. rewrite length_firstn, skipn_O. lia. }
  assert (Hr : len (slice sentence_b (Some end_) None)
               = len sentence_b - clip (len sentence_b) end_).
  { unfold slice, len in *. rewrite length_firstn, length_skipn. lia. }
  unfold len in *. rewrite !length_app. cbn [length]. lia.
Qed.

(** ** Every way [extract_features] ends *)

Section ExtractMore.
Variable word_tokenize : str -> list str.
Variable u : Ucd.

Lemma marked_sentence_error (sentence : str) (start end_ : Z) (e : exn) :
  marked_sentence sentence start end_ = Err e ->
  e = UnicodeEncodeError \/ e = UnicodeDecodeError.
Proof.
  unfold marked_sentence. destruct (encode sentence) as [b|e'] eqn:E.
  - cbn [bind]. intros D. right. exact (decode_error _ _ D).
  - intros [= <-]. left. exact (proj1 (encode_error _ _ E)).
Qed.

Lemma extract_features_cases (sentence homograph : str) (start end_ : Z) :
  (exists e, marked_sentence sentence start end_ = Err e /\
             extract_features word_tokenize u sentence homograph start end_
             = Err e) \/
  (exists marked, marked_sentence sentence start end_ = Ok marked /\
     find_target (word_tokenize marked) = -1 /\
     extract_features word_tokenize u sentence homograph start end_
     = Err (AssertionError homograph)) \/
  (exists fv, extract_features word_tokenize u sentence homograph start end_
              = Ok fv).
Proof.
  destruct (marked_sentence sentence start end_) as [marked|e] eqn:Hm.
  - right. destruct (Z.eq_dec (find_target (word_tokenize marked)) (-1))
      as [Ht|Ht].
    + left. exists marked. split; [reflexivity|]. split; [exact Ht|].
      now apply (extract_features_not_found _ _ _ _ marked).
    + right.
      destruct (extract_features_found word_tokenize u sentence homograph
                  marked start end_ _ Hm eq_refl Ht)
        as (token & v1 & v2 & v3 & v4 & _ & _ & _ & _ & _ & Hfv).
      eexists. exact Hfv.
  - left. exists e. split; [reflexivity|].
    unfold extract_features. now rewrite Hm.
Qed.
End ExtractMore.

(** X6: the only exceptions of [extract_features] are the two of the
    codec and the failed assertion naming the homograph; the reads of the
    token list and of the dictionary never raise. *)
Theorem extract_features_raises_only
    (word_tokenize : str -> list str) (u : Ucd)
    (sentence homograph : str) (start end_ : Z) (e : exn) :
  extract_features word_tokenize u sentence homograph start end_ = Err e ->
  e = UnicodeEncodeError \/ e = UnicodeDecodeError \/
  e = AssertionError homograph.
Proof.
  intros H.
  destruct (extract_features_cases word_tokenize u sentence homograph
              start end_) as [(e' & Hm & He)|[(m & _ & _ & He)|[fv He]]];
    rewrite He in H; [|injection H as <-; auto | discriminate].
  injection H as <-.
  destruct (marked_sentence_error _ _ _ _ Hm); auto.
Qed.

Lemma extract_features_raises_only_witness :
  AssertionError (lit "rec ord") = UnicodeEncodeError \/
  AssertionError (lit "rec ord") = UnicodeDecodeError \/
  AssertionError (lit "rec ord") = AssertionError (lit "rec ord").
Proof.
  apply (extract_features_raises_only split_tokenize latin1
           (lit "rec ord") (lit "rec ord") 0 7).
  vm_compute. reflexivity.
Defined.

(** X7: [extract_features] raises [UnicodeEncodeError] exactly when the
    sentence holds a surrogate or a value past U+10FFFF. *)
Theorem extract_features_unencodable
    (word_tokenize : str -> list str) (u : Ucd)
    (sentence homograph : str) (start end_ : Z) :
  extract_features word_tokenize u sentence homograph start end_
    = Err UnicodeEncodeError <->
  Exists (fun c => (55296 <= c <= 57343)%N \/ (1114112 <= c)%N) sentence.
Proof.
  split.
  - intros H.
    destruct (extract_features_cases word_tokenize u sentence homograph
                start end_) as [(e' & Hm & He)|[(m & _ & _ & He)|[fv He]]];
      rewrite He in H; try discriminate.
    injection H as ->. unfold marked_sentence in Hm.
    destruct (encode sentence) as [b|e] eqn:E.
    + cbn [bind] in Hm. apply decode_error in Hm. discriminate.
    + exact (proj2 (encode_error _ _ E)).
  - intros Hex. unfold extract_features, marked_sentence.
    destruct (encode sentence) as [b|e] eqn:E.
    + apply encode_ok in E. apply List.Exists_exists in Hex.
      destruct Hex as (c & Hin & Hc). rewrite List.Forall_forall in E.
      now destruct (E c Hin).
    + now rewrite (proj1 (encode_error _ _ E)).
Qed.

(** X8: every vector [extract_features] returns has exactly the eight
    feature names as its keys. *)
Theorem extract_features_keys
    (word_tokenize : str -> list str) (u : Ucd)
    (sentence homograph : str) (start end_ : Z) (fv : FeatureVector) :
  extract_features word_tokenize u sentence homograph start end_ = Ok fv ->
  dom fv = feature_names /\ size fv = 8%nat.
Proof.
  intros H.
  destruct (extract_features_ok _ _ _ _ _ _ _ H)
    as (marked & token & v1 & v2 & v3 & v4
        & _ & _ & _ & _ & _ & _ & _ & _ & ->).
  split; [apply feature_map_dom|].
  rewrite <- size_dom, feature_map_dom. reflexivity.
Qed.

Lemma extract_features_keys_witness :
  dom (feature_map (lit "the") (lit "record") (lit ".") (lit "[^]")
         (lit "lower")) = feature_names /\
  size (feature_map (lit "the") (lit "record") (lit ".") (lit "[^]")
          (lit "lower")) = 8%nat.
Proof.
  apply (extract_features_keys split_tokenize latin1
           (lit "to record the record .") (lit "record") 14 20).
  vm_compute. reflexivity.
Defined.

(** X9: on every successful call the features "t+1^t+2" and "t-1^t+1" are
    the values of the two positions they name, joined by a caret. *)
Theorem combined_features_join_their_parts
    (word_tokenize : str -> list str) (u : Ucd)
    (sentence homograph : str) (start end_ : Z) (fv : FeatureVector) :
  extract_features word_tokenize u sentence homograph start end_ = Ok fv ->
  exists v1 v3 v4,
    fv !! lit "t-1" = Some v1 /\
    fv !! lit "t+1" = Some v3 /\
    fv !! lit "t+2" = Some v4 /\
    fv !! lit "t+1^t+2" = Some (v3 ++ lit "^" ++ v4) /\
    fv !! lit "t-1^t+1" = Some (v1 ++ lit "^" ++ v3).
Proof.
  intros H.
  destruct (extract_features_ok _ _ _ _ _ _ _ H)
    as (marked & token & v1 & v2 & v3 & v4
        & _ & _ & _ & _ & _ & _ & _ & _ & ->).
  pose proof (feature_map_lookup v1 v2 v3 v4
                (cap u (remove token underscore)))
    as (L1 & _ & L3 & L4 & _ & L34 & L13 & _).
  exists v1, v3, v4. auto.
Qed.

Lemma combined_features_join_their_parts_witness :
  exists v1 v3 v4,
    feature_map (lit "the") (lit "record") (lit ".") (lit "[^]")
      (lit "lower") !! lit "t-1" = Some v1 /\
    feature_map (lit "the") (lit "record") (lit ".") (lit "[^]")
      (lit "lower") !! lit "t+1" = Some v3 /\
    feature_map (lit "the") (lit "record") (lit ".") (lit "[^]")
      (lit "lower") !! lit "t+2" = Some v4 /\
    feature_map (lit "the") (lit "record") (lit ".") (lit "[^]")
      (lit "lower") !! lit "t+1^t+2" = Some (v3 ++ lit "^" ++ v4) /\
    feature_map (lit "the") (lit "record") (lit ".") (lit "[^]")
      (lit "lower") !! lit "t-1^t+1" = Some (v1 ++ lit "^" ++ v3).
Proof.
  apply (combined_features_join_their_parts split_tokenize latin1
           (lit "to record the record .") (lit "record") 14 20).
  vm_compute. reflexivity.
Defined.

Lemma extract_features_homograph
    (word_tokenize : str -> list str) (u : Ucd)
    (sentence homograph homograph' : str) (start end_ : Z) :
  match extract_features word_tokenize u sentence homograph start end_ with
  | Ok fv =>
      extract_features word_tokenize u sentence homograph' start end_ = Ok fv
  | Err (AssertionError _) =>
      extract_features word_tokenize u sentence homograph' start end_
      = Err (AssertionError homograph')
  | Err e =>
      extract_features word_tokenize u sentence homograph' start end_ = Err e
  end.
Proof.
  destruct (marked_sentence sentence start end_) as [marked|e] eqn:Hm.
  - destruct (Z.eq_dec (find_target (word_tokenize marked)) (-1)) as [Ht|Ht].
    + rewrite !(extract_features_not_found _ _ _ _ marked) by assumption.
      reflexivity.
    + destruct (extract_features_found word_tokenize u sentence homograph
                  marked start end_ _ Hm eq_refl Ht)
        as (token & v1 & v2 & v3 & v4 & E & H1 & H2 & H3 & H4 & ->).
      destruct (extract_features_found word_tokenize u sentence homograph'
                  marked start end_ _ Hm eq_refl Ht)
        as (token' & w1 & w2 & w3 & w4 & E' & G1 & G2 & G3 & G4 & ->).
      congruence.
  - unfold extract_features. rewrite Hm. cbn [bind].
    destruct (marked_sentence_error _ _ _ _ Hm) as [-> | ->]; reflexivity.
Qed.

(** X10: the [homograph] argument does not enter the features: a call
    that succeeds returns the same vector for any other homograph. *)
Theorem homograph_only_names_the_failure
    (word_tokenize : str -> list str) (u : Ucd)
    (sentence homograph homograph' : str) (start end_ : Z)
    (fv : FeatureVector) :
  extract_features word_tokenize u sentence homograph start end_ = Ok fv ->
  extract_features word_tokenize u sentence homograph' start end_ = Ok fv.
Proof.
  intros H.
  pose proof (extract_features_homograph word_tokenize u sentence
                homograph homograph' start end_) as G.
  now rewrite H in G.
Qed.

Lemma homograph_only_names_the_failure_witness :
  extract_features split_tokenize latin1
    (lit "to record the record .") (lit "something else") 14 20
  = Ok (feature_map (lit "the") (lit "record") (lit ".") (lit "[^]")
          (lit "lower")).
Proof.
  apply (homograph_only_names_the_failure split_tokenize latin1
           (lit "to record the record .") (lit "record")).
  vm_compute. reflexivity.
Defined.

(** ** The target among the tokens *)

Lemma Zsum_count_one (tokens : list str) (t : nat) (token : str) :
  nth_error tokens t = Some token ->
  count token caret
  <= Zsum (List.map (fun token => count token caret) tokens).
Proof.
  revert t. induction tokens as [|x tokens IH]; intros [|t]; try discriminate;
    cbn [nth_error List.map];
    change (Zsum (?a :: ?l)) with (a + Zsum l).
  - intros [= ->].
    assert (0 <= Zsum (List.map (fun token => count token caret) tokens)).
    { clear. induction tokens as [|y l IH]; [cbn; lia|].
      cbn [List.map]. change (Zsum (?a :: ?l)) with (a + Zsum l).
      pose proof (count_nonneg y caret). lia. }
    lia.
  - intros H. specialize (IH _ H). pose proof (count_nonneg x caret). lia.
Qed.

Lemma Zsum_count_two (tokens : list str) (t j : nat) (token token' : str) :
  t <> j ->
  nth_error tokens t = Some token -> nth_error tokens j = Some token' ->
  count token caret + count token' caret
  <= Zsum (List.map (fun token => count token caret) tokens).
Proof.
  revert t j. induction tokens as [|x tokens IH]; intros [|t] [|j] Hne;
    try discriminate; try congruence;
    cbn [nth_error List.map];
    change (Zsum (?a :: ?l)) with (a + Zsum l).
  - intros [= ->] H. pose proof (Zsum_count_one _ _ _ H). lia.
  - intros H [= ->]. pose proof (Zsum_count_one _ _ _ H). lia.
  - intros H H'. assert (t <> j) by congruence.
    specialize (IH _ _ H0 H H'). pose proof (count_nonneg x caret). lia.
Qed.

(** X11: when the sentence has no caret of its own and the tokens hold no
    more carets than the text they come from, a successful call has found
    the one token that holds any caret: every other token has none. *)
Theorem target_is_the_only_token_with_carets
    (word_tokenize : str -> list str) (u : Ucd)
    (sentence homograph marked : str) (sentence_b : bytes)
    (start end_ : Z) (fv : FeatureVector) :
  count sentence caret = 0 ->
  encode sentence = Ok sentence_b ->
  0 <= start <= end_ -> end_ <= len sentence_b ->
  marked_sentence sentence start end_ = Ok marked ->
  Zsum (List.map (fun token => count token caret) (word_tokenize marked))
    <= count marked caret ->
  extract_features word_tokenize u sentence homograph start end_ = Ok fv ->
  exists (t : nat) token,
    find_target (word_tokenize marked) = Z.of_nat t /\
    nth_error (word_tokenize marked) t = Some token /\
    count token caret = 2 /\
    forall (j : nat) token',
      j <> t -> nth_error (word_tokenize marked) j = Some token' ->
      count token' caret = 0.
Proof.
  intros H0 He Hs Hn Hm Hsum H.
  pose proof (marked_sentence_has_two_more_carets_aux _ _ _ _ _ He Hs Hn Hm)
    as Hc.
  destruct (extract_features_ok _ _ _ _ _ _ _ H)
    as (marked' & token & v1 & v2 & v3 & v4
        & Hm' & Hr & E & Ht & _).
  rewrite Hm in Hm'. injection Hm' as <-. cbn zeta in Hr, E.
  exists (Z.to_nat (find_target (word_tokenize marked))), token.
  split; [lia|]. split; [exact E|]. split; [exact Ht|].
  intros j token' Hne Ej.
  pose proof (Zsum_count_two _ _ _ _ _ (not_eq_sym Hne) E Ej).
  pose proof (count_nonneg token' caret). lia.
Qed.

Lemma target_is_the_only_token_with_carets_witness :
  exists (t : nat) token,
    find_target (split_tokenize (lit "to record the ^record^ ."))
      = Z.of_nat t /\
    nth_error (split_tokenize (lit "to record the ^record^ .")) t
      = Some token /\
    count token caret = 2 /\
    forall (j : nat) token',
      j <> t ->
      nth_error (split_tokenize (lit "to record the ^record^ .")) j
        = Some token' ->
      count token' caret = 0.
Proof.
  apply (target_is_the_only_token_with_carets split_tokenize latin1
           (lit "to record the record .") (lit "record")
           (lit "to record the ^record^ .")
           (List.map byte_of_N (lit "to record the record .")) 14 20
           (feature_map (lit "the") (lit "record") (lit ".") (lit "[^]")
              (lit "lower")));
    [ reflexivity | reflexivity | lia | vm_compute; discriminate
    | reflexivity | vm_compute; discriminate | vm_compute; reflexivity ].
Defined.

(** ** Carets in the classified text *)

Section UncasedEnds.
Variable u : Ucd.
Variable c : N.
Hypothesis Hc : case_of u c = Uncased.

Lemma isupper_loop_uncased_end (cased : bool) (s : str) :
  isupper_loop u cased (s ++ [c]) = isupper_loop u cased s.
Proof.
  revert cased. induction s as [|x s IH]; intros cased; cbn.
  - now rewrite Hc.
  - destruct (case_of u x); auto.
Qed.

Lemma islower_loop_uncased_end (cased : bool) (s : str) :
  islower_loop u cased (s ++ [c]) = islower_loop u cased s.
Proof.
  revert cased. induction s as [|x s IH]; intros cased; cbn.
  - now rewrite Hc.
  - destruct (case_of u x); auto.
Qed.

Lemma istitle_loop_uncased_end (cased previous : bool) (s : str) :
  istitle_loop u cased previous (s ++ [c]) = istitle_loop u cased previous s.
Proof.
  revert cased previous. induction s as [|x s IH]; intros cased previous; cbn.
  - now rewrite Hc.
  - destruct (case_of u x), previous; auto.
Qed.

Lemma cap_uncased_ends (s : str) : cap u ([c] ++ s ++ [c]) = cap u s.
Proof.
  unfold cap, isupper, islower, istitle. cbn [app].
  cbn [isupper_loop islower_loop istitle_loop]. rewrite Hc.
  now rewrite isupper_loop_uncased_end, islower_loop_uncased_end,
    istitle_loop_uncased_end.
Qed.
End UncasedEnds.

Lemma remove_app (s s' : str) (c : N) :
  remove (s ++ s') c = remove s c ++ remove s' c.
Proof.
  induction s as [|x s IH]; cbn; [reflexivity|].
  destruct (x =? c)%N; cbn; now rewrite IH.
Qed.

(** X12: when the target token is the span's text between its two carets
    and the caret is uncased, cap(t) is the class of that text without its
    underscores: the carets left in the classified text do not change the
    class. *)
Theorem cap_of_bracketed_token
    (word_tokenize : str -> list str) (u : Ucd)
    (sentence homograph marked text : str) (start end_ : Z) :
  case_of u caret = Uncased ->
  marked_sentence sentence start end_ = Ok marked ->
  find_target (word_tokenize marked) <> -1 ->
  nth_error (word_tokenize marked)
    (Z.to_nat (find_target (word_tokenize marked)))
    = Some ([caret] ++ text ++ [caret]) ->
  exists fv,
    extract_features word_tokenize u sentence homograph start end_ = Ok fv /\
    fv !! lit "cap(t)" = Some (cap u (remove text underscore)).
Proof.
  intros Hc Hm Ht E.
  destruct (extract_features_found word_tokenize u sentence homograph
              marked start end_ _ Hm eq_refl Ht)
    as (token & v1 & v2 & v3 & v4 & E' & _ & _ & _ & _ & Hfv).
  assert (Et : token = [caret] ++ text ++ [caret]) by congruence.
  subst token. eexists. split; [exact Hfv|].
  destruct (feature_map_lookup v1 v2 v3 v4
              (cap u (remove ([caret] ++ text ++ [caret]) underscore)))
    as (_ & _ & _ & _ & _ & _ & _ & L).
  rewrite L, !remove_app. change (remove [caret] underscore) with [caret].
  now rewrite cap_uncased_ends.
Qed.

Lemma cap_of_bracketed_token_witness :
  exists fv,
    extract_features split_tokenize latin1
      (lit "a Re_cord here") (lit "Record") 2 9 = Ok fv /\
    fv !! lit "cap(t)" = Some (cap latin1 (lit "Record")).
Proof.
  apply (cap_of_bracketed_token split_tokenize latin1
           (lit "a Re_cord here") (lit "Record") (lit "a ^Re_cord^ here")
           (lit "Re_cord") 2 9).
  - reflexivity.
  - vm_compute. reflexivity.
  - vm_compute. discriminate.
  - vm_compute. reflexivity.
Defined.

(** ** More on the pass over a file *)

Section FileMore.
Variable word_tokenize : str -> list str.
Variable u : Ucd.
Variable int : str -> result Z.

Local Abbreviation per_row := (row_features word_tokenize u int).
Local Abbreviation rows_pass :=
  (extract_features_rows word_tokenize u int).

Lemma extract_features_rows_app
    (rows rows' : list Row) (features : FeatureVectors) (labels : list str) :
  rows_pass (rows ++ rows') features labels =
  do r <- rows_pass rows features labels in
  rows_pass rows' (fst r) (snd r).
Proof.
  revert features labels.
  induction rows as [|row rows IH]; intros features labels; [reflexivity|].
  cbn [app]. rewrite !extract_features_rows_cons.
  destruct (per_row row) as [fv|e]; [|reflexivity]. cbn [bind]. apply IH.
Qed.

Lemma extract_features_rows_ok_inv
    (rows : list Row) (features features' : FeatureVectors)
    (labels labels' : list str) :
  rows_pass rows features labels = Ok (features', labels') ->
  exists fvs,
    Forall2 (fun row fv => per_row row = Ok fv) rows fvs /\
    features' = features ++ fvs /\
    labels' = labels ++ List.map wordid rows.
Proof.
  revert features labels.
  induction rows as [|row rows IH]; intros features labels.
  - cbn. intros [= <- <-]. exists []. rewrite !app_nil_r. auto.
  - rewrite extract_features_rows_cons.
    destruct (per_row row) as [fv|e] eqn:Hrow; [|discriminate]. cbn [bind].
    intros H. destruct (IH _ _ H) as (fvs & HF & -> & ->).
    exists (fv :: fvs). split; [now constructor|].
    cbn [List.map]. now rewrite <- !app_assoc.
Qed.

Lemma row_features_keys (row : Row) (fv : FeatureVector) :
  per_row row = Ok fv -> dom fv = feature_names.
Proof.
  unfold row_features. intros Hrow.
  destruct (int (start row)); [|discriminate].
  destruct (int (end_ row)); [|discriminate]. cbn [bind] in Hrow.
  destruct (extract_features_ok _ _ _ _ _ _ _ Hrow)
    as (marked & token & v1 & v2 & v3 & v4
        & _ & _ & _ & _ & _ & _ & _ & _ & ->).
  apply feature_map_dom.
Qed.

Lemma rows_features_keys (rows : list Row) (fvs : FeatureVectors) :
  Forall2 (fun row fv => per_row row = Ok fv) rows fvs ->
  Forall (fun fv => dom fv = feature_names) fvs.
Proof.
  induction 1 as [|row fv rows fvs Hrow _ IH]; constructor; [|exact IH].
  exact (row_features_keys _ _ Hrow).
Qed.
End FileMore.

(** X13: the pass over a file whose rows are those of a first file
    followed by those of a second returns the features and the labels of
    the first followed by those of the second. *)
Theorem extract_features_file_concat
    (word_tokenize : str -> list str) (u : Ucd) (int : str -> result Z)
    (DictReader : str -> list Row) (path path1 path2 : str)
    (features1 features2 : FeatureVectors) (labels1 labels2 : list str) :
  DictReader path = DictReader path1 ++ DictReader path2 ->
  extract_features_file word_tokenize u int DictReader path1
    = Ok (features1, labels1) ->
  extract_features_file word_tokenize u int DictReader path2
    = Ok (features2, labels2) ->
  extract_features_file word_tokenize u int DictReader path
    = Ok (features1 ++ features2, labels1 ++ labels2).
Proof.
  unfold extract_features_file. intros -> H1 H2.
  rewrite extract_features_rows_app, H1. cbn [bind fst snd].
  destruct (extract_features_rows_ok_inv _ _ _ _ _ _ _ _ H2)
    as (fvs & HF & E1 & E2).
  cbn [app] in E1, E2. subst.
  now apply extract_features_rows_ok.
Qed.

Lemma extract_features_file_concat_witness :
  extract_features_file split_tokenize latin1 decimal
    (fun path => match path with
                 | [] => [example_row; example_verb_row]
                 | [_] => [example_row]
                 | _ => [example_verb_row]
                 end) []
  = Ok ([feature_map (lit "the") (lit "record") (lit ".") (lit "[^]")
           (lit "lower")]
        ++ [feature_map (lit "they") (lit "[$]") (lit "the") (lit "song")
              (lit "lower")],
        [lit "record_nou"] ++ [lit "record_vrb"]).
Proof.
  apply (extract_features_file_concat split_tokenize latin1 decimal
           _ [] [1%N] [1%N; 2%N]);
    [reflexivity | vm_compute; reflexivity | vm_compute; reflexivity].
Defined.

(** X14: when the pass over a file succeeds, every vector it returns has
    the eight feature names as keys, and the labels are the [wordid]
    column of the file. *)
Theorem extract_features_file_vectors
    (word_tokenize : str -> list str) (u : Ucd) (int : str -> result Z)
    (DictReader : str -> list Row) (path : str)
    (features : FeatureVectors) (labels : list str) :
  extract_features_file word_tokenize u int DictReader path
    = Ok (features, labels) ->
  Forall (fun fv => dom fv = feature_names) features /\
  labels = List.map wordid (DictReader path).
Proof.
  unfold extract_features_file. intros H.
  destruct (extract_features_rows_ok_inv _ _ _ _ _ _ _ _ H)
    as (fvs & HF & E1 & E2).
  cbn [app] in E1, E2. subst. split; [|reflexivity].
  exact (rows_features_keys _ _ _ _ _ HF).
Qed.

Lemma extract_features_file_vectors_witness :
  Forall (fun fv => dom fv = feature_names)
    [feature_map (lit "the") (lit "record") (lit ".") (lit "[^]")
       (lit "lower");
     feature_map (lit "they") (lit "[$]") (lit "the") (lit "song")
       (lit "lower")] /\
  [lit "record_nou"; lit "record_vrb"]
  = List.map wordid (example_reader (lit "record.tsv")).
Proof.
  apply (extract_features_file_vectors split_tokenize latin1 decimal
           example_reader (lit "record.tsv")).
  vm_compute. reflexivity.
Defined.

(** ** The loop of [main] *)

Lemma matches_range (y yhat : list str) : 0 <= matches y yhat <= len y.
Proof.
  unfold len. revert yhat.
  induction y as [|a y IH]; intros [|b yhat]; cbn [matches length]; try lia.
  specialize (IH yhat). destruct (decide (a = b)); lia.
Qed.

Lemma matches_same (y : list str) : matches y y = len y.
Proof.
  unfold len. induction y as [|a y IH]; cbn [matches length]; [reflexivity|].
  destruct (decide (a = a)); [lia | congruence].
Qed.

Section MainLoop.
Variable word_tokenize : str -> list str.
Variable u : Ucd.
Variable int : str -> result Z.
Variable DictReader : str -> list Row.
Variable Model : Type.
Variable fit : FeatureVectors -> list str -> result Model.
Variable predict : Model -> FeatureVectors -> result (list str).

Local Abbreviation loop :=
  (main_loop word_tokenize u int DictReader Model fit predict).

Lemma main_loop_counts
    (paths : list str) (correct size correct' size' : list Z) :
  loop paths correct size = Ok (correct', size') ->
  exists cs ss,
    correct' = correct ++ cs /\ size' = size ++ ss /\
    length cs = length paths /\
    Forall2 (fun c s => 0 <= c <= s) cs ss.
Proof.
  revert correct size.
  induction paths as [|train_path rest IH]; intros correct size.
  - cbn. intros [= <- <-]. exists [], []. rewrite !app_nil_r.
    repeat split. constructor.
  - cbn [main_loop].
    destruct (extract_features_file _ _ _ _ train_path) as [[fvs y]|e];
      [|discriminate]. cbn [bind].
    destruct (fit fvs y) as [model|e]; [|discriminate]. cbn [bind].
    destruct (extract_features_file _ _ _ _ _) as [[fvs' y']|e];
      [|discriminate]. cbn [bind].
    destruct (predict model fvs') as [yhat|e]; [|discriminate]. cbn [bind].
    destruct (negb (len y' =? len yhat)); [discriminate|].
    intros H. destruct (IH _ _ H) as (cs & ss & -> & -> & Hlen & HF).
    exists (matches y' yhat :: cs), (len y' :: ss).
    rewrite <- !app_assoc. repeat split; cbn [length]; [lia|].
    constructor; [apply matches_range | exact HF].
Qed.
End MainLoop.

(** ** The accuracies: bounds, failures, equal sizes *)

Lemma truediv_ok (a b : Z) (q : Q) :
  truediv a b = Ok q -> b <> 0 /\ q = (inject_Z a / inject_Z b)%Q.
Proof.
  unfold truediv. destruct (b =? 0) eqn:E; [discriminate|].
  intros [= <-]. split; [lia | reflexivity].
Qed.

Lemma inject_Z_pos (b : Z) : 0 < b -> (0 < inject_Z b)%Q.
Proof. intros H. unfold Qlt, inject_Z. cbn. lia. Qed.

Lemma inject_Z_nonneg (a : Z) : 0 <= a -> (0 <= inject_Z a)%Q.
Proof. intros H. unfold Qle, inject_Z. cbn. lia. Qed.

Lemma div_bounds (a b : Z) :
  0 <= a <= b -> 0 < b -> (0 <= inject_Z a / inject_Z b <= 1)%Q.
Proof.
  intros Ha Hb. pose proof (inject_Z_pos b Hb) as Hb'.
  split.
  - apply Qle_shift_div_l; [exact Hb'|]. rewrite Qmult_0_l.
    apply inject_Z_nonneg. lia.
  - apply Qle_shift_div_r; [exact Hb'|]. rewrite Qmult_1_l.
    unfold Qle, inject_Z. cbn. lia.
Qed.

Lemma Zsum_bounds (correct size : list Z) :
  Forall2 (fun c s => 0 <= c <= s) correct size ->
  0 <= Zsum correct <= Zsum size.
Proof.
  induction 1 as [|c s correct size H _ IH]; [cbn; lia|].
  change (Zsum (c :: correct)) with (c + Zsum correct).
  change (Zsum (s :: size)) with (s + Zsum size). lia.
Qed.

Lemma ratios_ok_inv (pairs : list (Z * Z)) (qs : list Q) :
  ratios pairs = Ok qs ->
  qs = List.map ratio pairs /\ Forall (fun r => snd r <> 0) pairs.
Proof.
  revert qs. induction pairs as [|[c s] pairs IH]; intros qs; cbn [ratios].
  - intros [= <-]. split; [reflexivity | constructor].
  - destruct (truediv c s) as [q|e] eqn:Hq; [|discriminate]. cbn [bind].
    destruct (ratios pairs) as [qs'|e]; [|discriminate]. cbn [bind].
    intros [= <-]. destruct (IH _ eq_refl) as [-> HF].
    destruct (truediv_ok _ _ _ Hq) as [Hs ->].
    split; [reflexivity | now constructor].
Qed.

Lemma Qsum_bounds (qs : list Q) :
  Forall (fun q => 0 <= q <= 1)%Q qs ->
  (0 <= Qsum qs <= inject_Z (len qs))%Q.
Proof.
  unfold len. induction 1 as [|q qs [H0 H1] _ [IH0 IH1]].
  - cbn. split; apply Qle_refl.
  - change (Qsum (q :: qs)) with (q + Qsum qs)%Q. cbn [length].
    rewrite Nat2Z.inj_succ, <- Z.add_1_l, inject_Z_plus.
    split.
    + rewrite <- (Qplus_0_l 0). now apply Qplus_le_compat.
    + now apply Qplus_le_compat.
Qed.

Lemma mean_bounds (qs : list Q) (m : Q) :
  Forall (fun q => 0 <= q <= 1)%Q qs -> mean qs = Ok m -> (0 <= m <= 1)%Q.
Proof.
  intros HF. unfold mean. destruct qs as [|q qs]; [discriminate|].
  intros [= <-]. rewrite fold_left_Qplus, Qplus_0_l.
  destruct (Qsum_bounds _ HF) as [H0 H1].
  assert (Hn : (0 < inject_Z (len (q :: qs)))%Q).
  { apply inject_Z_pos. unfold len. cbn [length]. lia. }
  split.
  - apply Qle_shift_div_l; [exact Hn|]. now rewrite Qmult_0_l.
  - apply Qle_shift_div_r; [exact Hn|]. now rewrite Qmult_1_l.
Qed.

Lemma Forall2_combine_ratio (correct size : list Z) :
  Forall2 (fun c s => 0 <= c <= s) correct size ->
  Forall (fun r => snd r <> 0) (combine correct size) ->
  Forall (fun q => 0 <= q <= 1)%Q (List.map ratio (combine correct size)).
Proof.
  induction 1 as [|c s correct size H _ IH]; cbn [combine List.map];
    [constructor|].
  intros HF. inversion HF as [|? ? Hs HF']; subst. cbn in Hs.
  constructor; [|now apply IH].
  unfold ratio. cbn [fst snd]. apply div_bounds; lia.
Qed.

Lemma accuracies_bounds
    (correct size : list Z) (micro macro : Q) :
  Forall2 (fun c s => 0 <= c <= s) correct size ->
  accuracies correct size = Ok (micro, macro) ->
  (0 <= micro <= 1)%Q /\ (0 <= macro <= 1)%Q.
Proof.
  intros HF. unfold accuracies.
  destruct (micro_accuracy correct size) as [mi|e] eqn:Hmi; [|discriminate].
  cbn [bind].
  destruct (macro_accuracy correct size) as [ma|e] eqn:Hma; [|discriminate].
  cbn [bind]. intros [= <- <-]. split.
  - unfold micro_accuracy in Hmi. rewrite !sum_Zsum in Hmi.
    destruct (truediv_ok _ _ _ Hmi) as [Hs ->].
    pose proof (Zsum_bounds _ _ HF). apply div_bounds; lia.
  - unfold macro_accuracy in Hma.
    destruct (ratios (combine correct size)) as [qs|e] eqn:Hr; [|discriminate].
    cbn [bind] in Hma. destruct (ratios_ok_inv _ _ Hr) as [-> Hne].
    apply (mean_bounds _ _ (Forall2_combine_ratio _ _ HF Hne) Hma).
Qed.

Lemma ratios_zero (pairs : list (Z * Z)) :
  Exists (fun r => snd r = 0) pairs -> ratios pairs = Err ZeroDivisionError.
Proof.
  induction pairs as [|[c s] pairs IH]; intros H; [inversion H|].
  cbn [ratios]. unfold truediv. destruct (s =? 0) eqn:E; [reflexivity|].
  cbn [bind]. rewrite IH; [reflexivity|].
  inversion H as [? ? Hs|]; subst; [cbn in Hs; lia | assumption].
Qed.

Lemma Zsum_nonneg (size : list Z) :
  Forall (fun s => 0 <= s) size -> 0 <= Zsum size.
Proof.
  induction 1 as [|s size Hs _ IH]; [cbn; lia|].
  change (Zsum (s :: size)) with (s + Zsum size). lia.
Qed.

Lemma combine_snd_zero (correct size : list Z) :
  length correct = length size ->
  Exists (fun s => s = 0) size ->
  Exists (fun r : Z * Z => snd r = 0) (combine correct size).
Proof.
  revert size. induction correct as [|c correct IH]; intros [|s size] Hlen H;
    try discriminate; [inversion H|].
  cbn [combine]. inversion H as [? ? Hs|]; subst.
  - now apply Exists_cons_hd.
  - apply Exists_cons_tl. apply IH; [cbn in Hlen; lia | assumption].
Qed.

Lemma combine_snd_pos (correct size : list Z) :
  length correct = length size ->
  Forall (fun s => 0 < s) size ->
  Forall (fun r : Z * Z => 0 < snd r) (combine correct size).
Proof.
  revert size. induction correct as [|c correct IH]; intros [|s size] Hlen H;
    try discriminate; cbn [combine]; [constructor|].
  inversion H; subst. constructor; [assumption|].
  apply IH; [cbn in Hlen; lia | assumption].
Qed.

(** X18: on lists of one length with no negative size, the two log lines
    succeed when there is a file and every size is positive; when there is
    no file or some size is zero they raise [ZeroDivisionError], never
    the [StatisticsError] of an empty mean. *)
Theorem accuracies_fail_only_dividing_by_zero (correct size : list Z) :
  length correct = length size ->
  Forall (fun s => 0 <= s) size ->
  (size <> [] /\ Forall (fun s => 0 < s) size ->
   exists micro macro, accuracies correct size = Ok (micro, macro)) /\
  (size = [] \/ Exists (fun s => s = 0) size ->
   accuracies correct size = Err ZeroDivisionError).
Proof.
  intros Hlen Hnn. unfold accuracies, micro_accuracy, macro_accuracy. split.
  - intros [Hne Hpos]. rewrite !sum_Zsum. unfold truediv at 1.
    pose proof (Zsum_pos size Hne Hpos).
    replace (Zsum size =? 0) with false by lia. cbn [bind].
    rewrite (ratios_ok _ (combine_snd_pos _ _ Hlen Hpos)). cbn [bind].
    destruct correct as [|c correct]; destruct size as [|s size];
      try (exfalso; cbn in Hlen; lia); [congruence|].
    cbn [combine List.map mean]. eauto.
  - intros [-> | Hz].
    + destruct correct; [reflexivity | discriminate].
    + rewrite !sum_Zsum. unfold truediv at 1.
      destruct (Zsum size =? 0); [reflexivity|]. cbn [bind].
      now rewrite (ratios_zero _ (combine_snd_zero _ _ Hlen Hz)).
Qed.





Lemma Qsum_ratio_all_correct (size : list Z) :
  Forall (fun s => 0 < s) size ->
  (Qsum (List.map ratio (combine size size)) == inject_Z (len size))%Q.
Proof.
  unfold len. induction 1 as [|s size Hs _ IH]; [reflexivity|].
  cbn [combine List.map length].
  change (Qsum (ratio (s, s) :: ?l)) with (ratio (s, s) + Qsum l)%Q.
  rewrite IH, Nat2Z.inj_succ, <- Z.add_1_l, inject_Z_plus.
  unfold ratio. cbn [fst snd].
  assert (Hs' : ~ (inject_Z s == 0)%Q) by (unfold Qeq, inject_Z; cbn; lia).
  field. exact Hs'.
Qed.

(** X20: when every prediction is right, so that the correct counts are
    the sizes, both accuracies are 1. *)
Theorem all_correct_gives_one (size : list Z) :
  size <> [] -> Forall (fun s => 0 < s) size ->
  exists micro macro,
    accuracies size size = Ok (micro, macro) /\
    (micro == 1)%Q /\ (macro == 1)%Q.
Proof.
  intros Hne Hpos.
  assert (Hn : 0 < len size).
  { unfold len. destruct size; [congruence | cbn [length]; lia]. }
  unfold accuracies, micro_accuracy, macro_accuracy.
  rewrite !sum_Zsum. unfold truediv at 1.
  pose proof (Zsum_pos size Hne Hpos).
  replace (Zsum size =? 0) with false by lia. cbn [bind].
  rewrite (ratios_ok _ (combine_snd_pos _ _ eq_refl Hpos)). cbn [bind].
  assert (Hc : len (List.map ratio (combine size size)) = len size).
  { unfold len. rewrite length_map, length_combine. lia. }
  unfold mean.
  destruct (List.map ratio (combine size size)) as [|q qs] eqn:Eq.
  { unfold len in *. cbn [length] in Hc. lia. }
  cbn [bind]. eexists. eexists. split; [reflexivity|]. split.
  - assert (Hs' : ~ (inject_Z (Zsum size) == 0)%Q)
      by (unfold Qeq, inject_Z; cbn; lia).
    field. exact Hs'.
  - rewrite fold_left_Qplus, Qplus_0_l, Hc, <- Eq.
    rewrite (Qsum_ratio_all_correct _ Hpos).
    assert (Hn' : ~ (inject_Z (len size) == 0)%Q)
      by (unfold Qeq, inject_Z; cbn; lia).
    field. exact Hn'.
Qed.

Lemma all_correct_gives_one_witness :
  exists micro macro,
    accuracies [3; 5] [3; 5] = Ok (micro, macro) /\
    (micro == 1)%Q /\ (macro == 1)%Q.
Proof.
  apply (all_correct_gives_one [3; 5]);
    [discriminate | repeat constructor].
Defined.

(** X15: when the loop of [main] ends, it has recorded one count pair per
    training file, and in every pair the number of correct predictions
    lies between zero and the number of evaluation rows. *)
Theorem main_loop_counts_per_file
    (word_tokenize : str -> list str) (u : Ucd) (int : str -> result Z)
    (DictReader : str -> list Row) (Model : Type)
    (fit : FeatureVectors -> list str -> result Model)
    (predict : Model -> FeatureVectors -> result (list str))
    (paths : list str) (correct size : list Z) :
  main_loop word_tokenize u int DictReader Model fit predict paths [] []
    = Ok (correct, size) ->
  length correct = length paths /\
  Forall2 (fun c s => 0 <= c <= s) correct size.
Proof.
  intros H. destruct (main_loop_counts _ _ _ _ _ _ _ _ _ _ _ _ H)
    as (cs & ss & -> & -> & Hlen & HF).
  cbn [app]. split; assumption.
Qed.

Lemma main_loop_counts_per_file_witness :
  length [1; 1]
  = length [lit "data/train/record.tsv"; lit "data/train/lead.tsv"] /\ Forall2 (fun c s => 0 <= c <= s) [1; 1] [2; 2].
Proof.
  apply (main_loop_counts_per_file split_tokenize latin1 decimal
           example_reader unit example_fit example_predict).
  vm_compute. reflexivity.
Defined.

(** X16: when [main] logs its two accuracies, both lie between 0 and 1,
    whatever the tokenizer, the reader and the learner are. *)
Theorem main_accuracies_between_zero_and_one
    (word_tokenize : str -> list str) (u : Ucd) (int : str -> result Z)
    (DictReader : str -> list Row) (iglob : str -> list str) (Model : Type)
    (fit : FeatureVectors -> list str -> result Model)
    (predict : Model -> FeatureVectors -> result (list str))
    (micro macro : Q) :
  main word_tokenize u int DictReader iglob Model fit predict
    = Ok (micro, macro) ->
  (0 <= micro <= 1)%Q /\ (0 <= macro <= 1)%Q.
Proof.
  unfold main.
  destruct (main_loop _ _ _ _ _ _ _ _ _ _) as [[correct size]|e] eqn:Hl;
    [|discriminate]. cbn [bind]. intros H.
  destruct (main_loop_counts _ _ _ _ _ _ _ _ _ _ _ _ Hl)
    as (cs & ss & -> & -> & _ & HF).
  exact (accuracies_bounds _ _ _ _ HF H).
Qed.

Lemma main_accuracies_between_zero_and_one_witness :
  (0 <= 2 # 4 <= 1)%Q /\ (0 <= 4 # 8 <= 1)%Q.
Proof.
  apply (main_accuracies_between_zero_and_one split_tokenize latin1 decimal
           example_reader
           (fun _ => [lit "data/train/record.tsv"; lit "data/train/lead.tsv"])
           unit example_fit example_predict).
  vm_compute. reflexivity.
Defined.

(** X17: when the pattern matches no file, [main] raises
    [ZeroDivisionError] at the micro-average line. *)
Theorem main_without_files
    (word_tokenize : str -> list str) (u : Ucd) (int : str -> result Z)
    (DictReader : str -> list Row) (iglob : str -> list str) (Model : Type)
    (fit : FeatureVectors -> list str -> result Model)
    (predict : Model -> FeatureVectors -> result (list str)) :
  iglob TRAIN_TSV = [] ->
  main word_tokenize u int DictReader iglob Model fit predict
    = Err ZeroDivisionError.
Proof. intros H. unfold main. rewrite H. reflexivity. Qed.

Lemma main_without_files_witness :
  main split_tokenize latin1 decimal example_reader (fun _ => [])
    unit example_fit example_predict
  = Err ZeroDivisionError.
Proof. now apply main_without_files. Defined.

Lemma accuracies_fail_only_dividing_by_zero_witness :
  (exists micro macro, accuracies [1; 2] [3; 3] = Ok (micro, macro)) /\
  accuracies [1; 0] [3; 0] = Err ZeroDivisionError.
Proof.
  split.
  - apply (accuracies_fail_only_dividing_by_zero [1; 2] [3; 3]);
      [reflexivity | repeat constructor; lia |].
    split; [discriminate | repeat constructor].
  - apply (accuracies_fail_only_dividing_by_zero [1; 0] [3; 0]);
      [reflexivity | repeat constructor; lia |].
    right. apply Exists_cons_tl, Exists_cons_hd. reflexivity.
Defined.
